(** * Non-blocking animation / timeout scheduler of the FNK0089 robot

    A shallow embedding of [main.py]: the [AnimationEngine] class (colour
    fades, colour sequences, matrix frame cycling), the motor [drive] /
    [stop] functions with their auto-stop deadline, the infrared dispatcher
    [ir_callback] and one round of the polling loop of [run].

    Conventions.
    - Python integers are [Z]; list indices and the sequence and frame
      cursors, which the program only ever counts upwards from 0, are [nat].
    - A Python exception is the [Raise] case of [result]; the state at the
      point of the exception is dropped.
    - Every call of [utime.ticks_ms()] is an explicit argument of the
      function that makes the call, so that nothing is assumed about how
      much time passes between two readings.
    - The NeoPixel strip is its pixel buffer [np], a [bytearray] in the
      driver: [np[i] = c] keeps the low byte of each channel of [c],
      [np[i]] returns the tuple so stored, and the length never changes.
    - Hardware effects are recorded in logs carried by the state:
      [np_written] (one entry per [np.write()]), [matrix_calls] (one entry
      per call of the matrix sink) and [pwm_writes] (one entry per
      [duty_u16]).  Logs grow at the end.
    - Floating point ([elapsed / duration], [int(...)]) goes through the
      interface [FloatOps]; the laws [FloatArith] asks of it are those of a
      rounding arithmetic (operations monotone in each argument, exact on
      the integers it can represent).  [exact_arith], on the rationals, is
      the instance without rounding.

    The first part holds the definitions, the second the properties. *)

From Stdlib Require Import ZArith QArith Qround Lia.
From stdpp Require Import base list.

Local Open Scope Z_scope.

(** ** Exceptions *)

Inductive exn := IndexError | OverflowError.

Inductive result (A : Type) :=
| Ok (a : A)
| Raise (e : exn).
Arguments Ok {A} a.
Arguments Raise {A} e.

#[global] Instance result_ret : MRet result := @Ok.
#[global] Instance result_bind : MBind result :=
  λ A B f m, match m with Ok a => f a | Raise e => Raise e end.

(** [l[i]] for a non-negative index. *)
Definition getitem {A} (l : list A) (i : nat) : result A :=
  match l !! i with
  | Some x => Ok x
  | None => Raise IndexError
  end.

(** [l[i] = x]. *)
Definition setitem {A} (l : list A) (i : nat) (x : A) : result (list A) :=
  if decide (i < length l)%nat then Ok (<[i:=x]> l) else Raise IndexError.

(** [for i in idxs: s = body(i, s)]. *)
Fixpoint for_each {S} (idxs : list nat) (body : nat → S → result S) (s : S)
  : result S :=
  match idxs with
  | [] => Ok s
  | i :: rest => s' ← body i s; for_each rest body s'
  end.

(** ** The millisecond clock

    [utime] belongs to MicroPython, not to the repository.  Its tick counter
    runs modulo [TICKS_PERIOD], a power of two (2^30 on the 32-bit ports);
    [ticks_ms] returns a value in [0, TICKS_PERIOD); [ticks_add] wraps, and
    raises [OverflowError] for a delta that is not strictly between
    [-TICKS_PERIOD/2] and [TICKS_PERIOD/2]; [ticks_diff] returns the signed
    distance in [-TICKS_PERIOD/2, TICKS_PERIOD/2). *)

Definition TICKS_PERIOD : Z := 2 ^ 30.

Definition is_tick (t : Z) : Prop := 0 <= t < TICKS_PERIOD.

Definition ticks_add (t delta : Z) : result Z :=
  if (- (TICKS_PERIOD / 2) <? delta) && (delta <? TICKS_PERIOD / 2) then
    Ok ((t + delta) mod TICKS_PERIOD)
  else Raise OverflowError.

Definition ticks_diff (t1 t2 : Z) : Z :=
  (t1 - t2 + TICKS_PERIOD / 2) mod TICKS_PERIOD - TICKS_PERIOD / 2.

(** The counter value [d] milliseconds after it read [t]. *)
Definition ticks_after (t d : Z) : Z := (t + d) mod TICKS_PERIOD.

(** ** Floating point

    MicroPython's floats, as far as [update] uses them: the conversion of
    an integer, [+], [*], [/] and [int(...)]. *)

Class FloatOps := {
  float : Type;
  of_int : Z → float;                 (* int -> float conversion *)
  fadd : float → float → float;
  fmul : float → float → float;
  fdiv : float → float → float;
  trunc : float → Z;                  (* int(x): truncation toward zero *)
  fle : float → float → Prop;         (* x <= y *)
  exact : Z → Prop;                   (* integers represented without rounding *)
}.

(** Numerically equal (as [0.0] and [-0.0] are). *)
Definition feq {FO : FloatOps} (x y : float) : Prop := fle x y ∧ fle y x.

(** What the properties below ask of the arithmetic, on the finite values
    the program computes with: [<=] is a preorder; conversion, [+], [*], [/]
    and [int] round monotonically; [int] moves toward zero; [0/d], [d/d],
    [k*0], [c*1], [c+0] are exact, and so is the sum of two integers when
    they and it are represented exactly. *)
Class FloatArith := {
  float_ops :: FloatOps;
  fle_refl : ∀ x, fle x x;
  fle_trans : ∀ x y z, fle x y → fle y z → fle x z;
  of_int_mono : ∀ a b, a <= b → fle (of_int a) (of_int b);
  fadd_mono : ∀ c x y, fle x y → fle (fadd c x) (fadd c y);
  fmul_mono_pos : ∀ c x y,
    fle (of_int 0) c → fle x y → fle (fmul c x) (fmul c y);
  fmul_mono_neg : ∀ c x y,
    fle c (of_int 0) → fle x y → fle (fmul c y) (fmul c x);
  fdiv_mono : ∀ d x y,
    0 < d → fle x y → fle (fdiv x (of_int d)) (fdiv y (of_int d));
  trunc_mono : ∀ x y, fle x y → trunc x <= trunc y;
  trunc_of_int : ∀ z, exact z → trunc (of_int z) = z;
  trunc_toward_zero_pos : ∀ x, fle (of_int 0) x → fle (of_int (trunc x)) x;
  trunc_toward_zero_neg : ∀ x, fle x (of_int 0) → fle x (of_int (trunc x));
  fdiv_zero : ∀ d, 0 < d → feq (fdiv (of_int 0) (of_int d)) (of_int 0);
  fdiv_same : ∀ d, 0 < d → feq (fdiv (of_int d) (of_int d)) (of_int 1);
  fmul_zero : ∀ k, feq (fmul (of_int k) (of_int 0)) (of_int 0);
  fmul_one : ∀ c, feq (fmul c (of_int 1)) c;
  fadd_zero : ∀ c, feq (fadd c (of_int 0)) c;
  fadd_exact : ∀ a b, exact a → exact b → exact (a + b) →
    feq (fadd (of_int a) (of_int b)) (of_int (a + b));
}.

(** *** The arithmetic without rounding: rationals *)

(** Truncation toward zero of a rational. *)
Definition Qtrunc (q : Q) : Z := Z.quot (Qnum q) (Z.pos (Qden q)).

Definition exact_ops : FloatOps := {|
  float := Q;
  of_int := inject_Z;
  fadd := Qplus;
  fmul := Qmult;
  fdiv := Qdiv;
  trunc := Qtrunc;
  fle := Qle;
  exact := λ _, True;
|}.

(** *** An arithmetic that rounds: binary fixed point

    Values are multiples of [2^-24]; [*] and [/] round toward minus
    infinity. *)

Definition FIX : Z := 2 ^ 24.

Definition fixed_ops : FloatOps := {|
  float := Z;
  of_int := λ z, z * FIX;
  fadd := Z.add;
  fmul := λ x y, (x * y) / FIX;
  fdiv := λ x y, (x * FIX) / y;
  trunc := λ x, x ÷ FIX;
  fle := Z.le;
  exact := λ _, True;
|}.

(** ** Data model *)

(** An [(r, g, b)] tuple. *)
Abbreviation Color := (Z * Z * Z)%type.

(** A 16-byte matrix bitmap. *)
Abbreviation Frame := (list Z).

(** What [fade_to] accepts as [target]: one colour tuple, or a list of
    colour tuples. *)
Inductive Target :=
| TColor (c : Color)
| TList (l : list Color).

(** One entry [(target, duration)] of a colour sequence. *)
Abbreviation Step := (Target * Z)%type.

(** The attributes of an [AnimationEngine], with the pixel buffer of its
    NeoPixel strip ([np]) and the two output logs. *)
Record Engine := mkEngine {
  np : list Color;
  np_written : list (list Color);
  matrix_calls : list Frame;
  rgb_animating : bool;
  rgb_seq_active : bool;
  rgb_sequence : list Step;
  rgb_seq_idx : nat;
  rgb_seq_loop : bool;
  rgb_start_time : Z;
  rgb_duration : Z;
  rgb_start_colors : list Color;
  rgb_target_colors : list Color;
  matrix_animating : bool;
  matrix_frames : list Frame;
  matrix_delay : Z;
  matrix_last_tick : Z;
  matrix_idx : nat;
}.

(** [np[i] = c] on the strip: the driver writes each channel into its
    [bytearray], which keeps the low byte. *)
Definition low_byte (v : Z) : Z := v mod 256.

Definition as_pixel (c : Color) : Color :=
  let '(r, g, b) := c in (low_byte r, low_byte g, low_byte b).

Definition np_setitem (buf : list Color) (i : nat) (c : Color)
  : result (list Color) :=
  setitem buf i (as_pixel c).

(** [self.num_leds = len(self.np)]; the strip never changes its length. *)
Definition num_leds (e : Engine) : nat := length (np e).

(** Attribute assignments. *)
Definition set_np v e :=
  mkEngine v (np_written e) (matrix_calls e) (rgb_animating e)
    (rgb_seq_active e) (rgb_sequence e) (rgb_seq_idx e) (rgb_seq_loop e)
    (rgb_start_time e) (rgb_duration e) (rgb_start_colors e)
    (rgb_target_colors e) (matrix_animating e) (matrix_frames e)
    (matrix_delay e) (matrix_last_tick e) (matrix_idx e).
Definition set_np_written v e :=
  mkEngine (np e) v (matrix_calls e) (rgb_animating e)
    (rgb_seq_active e) (rgb_sequence e) (rgb_seq_idx e) (rgb_seq_loop e)
    (rgb_start_time e) (rgb_duration e) (rgb_start_colors e)
    (rgb_target_colors e) (matrix_animating e) (matrix_frames e)
    (matrix_delay e) (matrix_last_tick e) (matrix_idx e).
Definition set_matrix_calls v e :=
  mkEngine (np e) (np_written e) v (rgb_animating e)
    (rgb_seq_active e) (rgb_sequence e) (rgb_seq_idx e) (rgb_seq_loop e)
    (rgb_start_time e) (rgb_duration e) (rgb_start_colors e)
    (rgb_target_colors e) (matrix_animating e) (matrix_frames e)
    (matrix_delay e) (matrix_last_tick e) (matrix_idx e).
Definition set_rgb_animating v e :=
  mkEngine (np e) (np_written e) (matrix_calls e) v
    (rgb_seq_active e) (rgb_sequence e) (rgb_seq_idx e) (rgb_seq_loop e)
    (rgb_start_time e) (rgb_duration e) (rgb_start_colors e)
    (rgb_target_colors e) (matrix_animating e) (matrix_frames e)
    (matrix_delay e) (matrix_last_tick e) (matrix_idx e).
Definition set_rgb_seq_active v e :=
  mkEngine (np e) (np_written e) (matrix_calls e) (rgb_animating e)
    v (rgb_sequence e) (rgb_seq_idx e) (rgb_seq_loop e)
    (rgb_start_time e) (rgb_duration e) (rgb_start_colors e)
    (rgb_target_colors e) (matrix_animating e) (matrix_frames e)
    (matrix_delay e) (matrix_last_tick e) (matrix_idx e).
Definition set_rgb_sequence v e :=
  mkEngine (np e) (np_written e) (matrix_calls e) (rgb_animating e)
    (rgb_seq_active e) v (rgb_seq_idx e) (rgb_seq_loop e)
    (rgb_start_time e) (rgb_duration e) (rgb_start_colors e)
    (rgb_target_colors e) (matrix_animating e) (matrix_frames e)
    (matrix_delay e) (matrix_last_tick e) (matrix_idx e).
Definition set_rgb_seq_idx v e :=
  mkEngine (np e) (np_written e) (matrix_calls e) (rgb_animating e)
    (rgb_seq_active e) (rgb_sequence e) v (rgb_seq_loop e)
    (rgb_start_time e) (rgb_duration e) (rgb_start_colors e)
    (rgb_target_colors e) (matrix_animating e) (matrix_frames e)
    (matrix_delay e) (matrix_last_tick e) (matrix_idx e).
Definition set_rgb_seq_loop v e :=
  mkEngine (np e) (np_written e) (matrix_calls e) (rgb_animating e)
    (rgb_seq_active e) (rgb_sequence e) (rgb_seq_idx e) v
    (rgb_start_time e) (rgb_duration e) (rgb_start_colors e)
    (rgb_target_colors e) (matrix_animating e) (matrix_frames e)
    (matrix_delay e) (matrix_last_tick e) (matrix_idx e).
Definition set_rgb_start_time v e :=
  mkEngine (np e) (np_written e) (matrix_calls e) (rgb_animating e)
    (rgb_seq_active e) (rgb_sequence e) (rgb_seq_idx e) (rgb_seq_loop e)
    v (rgb_duration e) (rgb_start_colors e)
    (rgb_target_colors e) (matrix_animating e) (matrix_frames e)
    (matrix_delay e) (matrix_last_tick e) (matrix_idx e).
Definition set_rgb_duration v e :=
  mkEngine (np e) (np_written e) (matrix_calls e) (rgb_animating e)
    (rgb_seq_active e) (rgb_sequence e) (rgb_seq_idx e) (rgb_seq_loop e)
    (rgb_start_time e) v (rgb_start_colors e)
    (rgb_target_colors e) (matrix_animating e) (matrix_frames e)
    (matrix_delay e) (matrix_last_tick e) (matrix_idx e).
Definition set_rgb_start_colors v e :=
  mkEngine (np e) (np_written e) (matrix_calls e) (rgb_animating e)
    (rgb_seq_active e) (rgb_sequence e) (rgb_seq_idx e) (rgb_seq_loop e)
    (rgb_start_time e) (rgb_duration e) v
    (rgb_target_colors e) (matrix_animating e) (matrix_frames e)
    (matrix_delay e) (matrix_last_tick e) (matrix_idx e).
Definition set_rgb_target_colors v e :=
  mkEngine (np e) (np_written e) (matrix_calls e) (rgb_animating e)
    (rgb_seq_active e) (rgb_sequence e) (rgb_seq_idx e) (rgb_seq_loop e)
    (rgb_start_time e) (rgb_duration e) (rgb_start_colors e)
    v (matrix_animating e) (matrix_frames e)
    (matrix_delay e) (matrix_last_tick e) (matrix_idx e).
Definition set_matrix_animating v e :=
  mkEngine (np e) (np_written e) (matrix_calls e) (rgb_animating e)
    (rgb_seq_active e) (rgb_sequence e) (rgb_seq_idx e) (rgb_seq_loop e)
    (rgb_start_time e) (rgb_duration e) (rgb_start_colors e)
    (rgb_target_colors e) v (matrix_frames e)
    (matrix_delay e) (matrix_last_tick e) (matrix_idx e).
Definition set_matrix_frames v e :=
  mkEngine (np e) (np_written e) (matrix_calls e) (rgb_animating e)
    (rgb_seq_active e) (rgb_sequence e) (rgb_seq_idx e) (rgb_seq_loop e)
    (rgb_start_time e) (rgb_duration e) (rgb_start_colors e)
    (rgb_target_colors e) (matrix_animating e) v
    (matrix_delay e) (matrix_last_tick e) (matrix_idx e).
Definition set_matrix_delay v e :=
  mkEngine (np e) (np_written e) (matrix_calls e) (rgb_animating e)
    (rgb_seq_active e) (rgb_sequence e) (rgb_seq_idx e) (rgb_seq_loop e)
    (rgb_start_time e) (rgb_duration e) (rgb_start_colors e)
    (rgb_target_colors e) (matrix_animating e) (matrix_frames e)
    v (matrix_last_tick e) (matrix_idx e).
Definition set_matrix_last_tick v e :=
  mkEngine (np e) (np_written e) (matrix_calls e) (rgb_animating e)
    (rgb_seq_active e) (rgb_sequence e) (rgb_seq_idx e) (rgb_seq_loop e)
    (rgb_start_time e) (rgb_duration e) (rgb_start_colors e)
    (rgb_target_colors e) (matrix_animating e) (matrix_frames e)
    (matrix_delay e) v (matrix_idx e).
Definition set_matrix_idx v e :=
  mkEngine (np e) (np_written e) (matrix_calls e) (rgb_animating e)
    (rgb_seq_active e) (rgb_sequence e) (rgb_seq_idx e) (rgb_seq_loop e)
    (rgb_start_time e) (rgb_duration e) (rgb_start_colors e)
    (rgb_target_colors e) (matrix_animating e) (matrix_frames e)
    (matrix_delay e) (matrix_last_tick e) v.

(** [[f(i) for i in idxs]]. *)
Fixpoint collect {A} (idxs : list nat) (f : nat → result A) : result (list A) :=
  match idxs with
  | [] => Ok []
  | i :: rest => x ← f i; xs ← collect rest f; Ok (x :: xs)
  end.

(** [AnimationEngine.__init__]; [pixels] is the buffer of [neopixel_obj]. *)
Definition init (pixels : list Color) : Engine :=
  {| np := pixels;
     np_written := [];
     matrix_calls := [];
     rgb_animating := false;
     rgb_seq_active := false;
     rgb_sequence := [];
     rgb_seq_idx := 0;
     rgb_seq_loop := false;
     rgb_start_time := 0;
     rgb_duration := 0;
     rgb_start_colors := replicate (length pixels) (0, 0, 0);
     rgb_target_colors := replicate (length pixels) (0, 0, 0);
     matrix_animating := false;
     matrix_frames := [];
     matrix_delay := 0;
     matrix_last_tick := 0;
     matrix_idx := 0 |}.

(** [self.np.write()]: the buffer goes out to the strip. *)
Definition np_write (e : Engine) : Engine :=
  set_np_written (np_written e ++ [np e]) e.

(** [self.matrix_func(frame)]. *)
Definition matrix_func (frame : Frame) (e : Engine) : Engine :=
  set_matrix_calls (matrix_calls e ++ [frame]) e.

(** Step 2 of [fade_to]: the target as one colour per LED. *)
Definition determine_target (n : nat) (target : Target) : result (list Color) :=
  match target with
  | TList l =>
      (* isinstance(target, list) and isinstance(target[0], tuple) *)
      c0 ← getitem l 0;
      if decide (length l = n) then Ok l else Ok (replicate n c0)
  | TColor c => Ok (replicate n c)
  end.

(** [fade_to(target, duration_ms)]; [now] is what [ticks_ms()] returns. *)
Definition fade_to (now : Z) (target : Target) (duration_ms : Z) (e : Engine)
  : result Engine :=
  start ← collect (seq 0 (num_leds e)) (getitem (np e));
  let e := set_rgb_start_colors start e in
  tgt ← determine_target (num_leds e) target;
  let e := set_rgb_target_colors tgt e in
  let e := set_rgb_duration duration_ms e in
  let e := set_rgb_start_time now e in
  Ok (set_rgb_animating true e).

(** [play_rgb_sequence(sequence, loop)]. *)
Definition play_rgb_sequence (now : Z) (sequence : list Step) (loop : bool)
    (e : Engine) : result Engine :=
  let e := set_rgb_sequence sequence e in
  let e := set_rgb_seq_loop loop e in
  let e := set_rgb_seq_idx 0 e in
  let e := set_rgb_seq_active true e in
  '(target, duration) ← getitem (rgb_sequence e) 0;
  fade_to now target duration e.

(** [stop_rgb()]. *)
Definition stop_rgb (e : Engine) : Engine :=
  let e := set_rgb_animating false e in
  let e := set_rgb_seq_active false e in
  let e := set_np (replicate (length (np e)) (0, 0, 0)) e in
  np_write e.

(** [play_matrix(frames_list, delay_ms)]. *)
Definition play_matrix (now : Z) (frames_list : list Frame) (delay_ms : Z)
    (e : Engine) : Engine :=
  let e := set_matrix_frames frames_list e in
  let e := set_matrix_delay delay_ms e in
  let e := set_matrix_idx 0 e in
  let e := set_matrix_last_tick now e in
  let e := set_matrix_animating true e in
  match matrix_frames e with
  | [] => e
  | frame0 :: _ => matrix_func frame0 e
  end.

(** [stop_matrix()]. *)
Definition stop_matrix (e : Engine) : Engine := set_matrix_animating false e.

(** *** [AnimationEngine.update] *)

(** How the RGB block of [update] ends: it falls through to the matrix
    block, or it leaves [update] through its [return]. *)
Inductive flow := FallThrough | Return.

Section Update.
Context {FO : FloatOps}.

(** [int(s + (t - s) * progress)] for one channel. *)
Definition lerp_channel (s t : Z) (progress : float) : Z :=
  trunc (fadd (of_int s) (fmul (of_int (t - s)) progress)).

(** The tuple [(r, g, b)] built in the interpolation loop. *)
Definition lerp (s t : Color) (progress : float) : Color :=
  let '(s0, s1, s2) := s in
  let '(t0, t1, t2) := t in
  (lerp_channel s0 t0 progress,
   lerp_channel s1 t1 progress,
   lerp_channel s2 t2 progress).

(** The loop of the completed fade: [self.np[i] = self.rgb_target_colors[i]]. *)
Definition apply_target (e : Engine) : result (list Color) :=
  for_each (seq 0 (num_leds e))
    (λ i buf, c ← getitem (rgb_target_colors e) i; np_setitem buf i c)
    (np e).

(** The interpolation loop. *)
Definition apply_lerp (progress : float) (e : Engine) : result (list Color) :=
  for_each (seq 0 (num_leds e))
    (λ i buf,
       s ← getitem (rgb_start_colors e) i;
       t ← getitem (rgb_target_colors e) i;
       np_setitem buf i (lerp s t progress))
    (np e).

(** The block under [# --- RGB Logic ---].  [now] is the reading taken at
    the top of [update]; [now_fade] is the reading [fade_to] takes when the
    block starts the next step of a sequence. *)
Definition rgb_logic (now now_fade : Z) (e : Engine) : result (flow * Engine) :=
  if rgb_animating e then
    let elapsed := ticks_diff now (rgb_start_time e) in
    if rgb_duration e <=? elapsed then
      buf ← apply_target e;
      let e := np_write (set_np buf e) in
      if rgb_seq_active e then
        let e := set_rgb_seq_idx (rgb_seq_idx e + 1)%nat e in
        let wrapped :=
          if (length (rgb_sequence e) <=? rgb_seq_idx e)%nat then
            if rgb_seq_loop e then Some (set_rgb_seq_idx 0 e) else None
          else Some e in
        match wrapped with
        | None =>
            Ok (Return, set_rgb_animating false (set_rgb_seq_active false e))
        | Some e =>
            '(target, duration) ← getitem (rgb_sequence e) (rgb_seq_idx e);
            e ← fade_to now_fade target duration e;
            Ok (FallThrough, e)
        end
      else Ok (FallThrough, set_rgb_animating false e)
    else if 0 <? rgb_duration e then
      let progress := fdiv (of_int elapsed) (of_int (rgb_duration e)) in
      buf ← apply_lerp progress e;
      Ok (FallThrough, np_write (set_np buf e))
    else Ok (FallThrough, e)
  else Ok (FallThrough, e).

(** The block under [# --- Matrix Logic ---]. *)
Definition matrix_logic (now : Z) (e : Engine) : result Engine :=
  if matrix_animating e && negb (bool_decide (matrix_frames e = [])) then
    if matrix_delay e <? ticks_diff now (matrix_last_tick e) then
      let e := set_matrix_last_tick now e in
      let e := set_matrix_idx
                 ((matrix_idx e + 1) mod length (matrix_frames e))%nat e in
      frame ← getitem (matrix_frames e) (matrix_idx e);
      Ok (matrix_func frame e)
    else Ok e
  else Ok e.

(** [update()]. *)
Definition update (now now_fade : Z) (e : Engine) : result Engine :=
  '(k, e) ← rgb_logic now now_fade e;
  match k with
  | Return => Ok e
  | FallThrough => matrix_logic now e
  end.

End Update.

(** ** Motors *)

Inductive Motor := M1 | M2 | M3 | M4.

(** The module-level state: the engine [anim], the global
    [motor_stop_time], and the log of [duty_u16] calls as
    (motor, index of the pin in its pair, duty). *)
Record Robot := mkRobot {
  anim : Engine;
  motor_stop_time : Z;
  pwm_writes : list (Motor * nat * Z);
}.

Definition set_anim v r := mkRobot v (motor_stop_time r) (pwm_writes r).
Definition set_motor_stop_time v r := mkRobot (anim r) v (pwm_writes r).
Definition set_pwm_writes v r := mkRobot (anim r) (motor_stop_time r) v.

Definition speed : Z := 32768.

(** The two [duty_u16] calls of one round of the loop in [drive]. *)
Definition duty_pair (key : Motor) (val : Z) : list (Motor * nat * Z) :=
  [ (key, 0%nat, if 0 <? val then speed else 0);
    (key, 1%nat, if val <? 0 then speed else 0) ].

(** [drive(fl, fr, rl, rr, duration)]; [now] is read only when
    [duration > 0].  The eight [duty_u16] calls come first; [ticks_add]
    then raises for a duration of half the period of the counter or
    more. *)
Definition drive (now : Z) (fl fr rl rr duration : Z) (r : Robot)
  : result Robot :=
  let dirs := [fl; fr; rl; rr] in
  let keys := [M1; M2; M3; M4] in
  let writes := flat_map (λ '(key, val), duty_pair key val) (zip keys dirs) in
  let r := set_pwm_writes (pwm_writes r ++ writes) r in
  if 0 <? duration then
    deadline ← ticks_add now duration;
    Ok (set_motor_stop_time deadline r)
  else Ok (set_motor_stop_time 0 r).

(** [stop()]: [drive(0, 0, 0, 0)].  With the default [duration = 0] the
    call takes the [else] branch, where the clock is not read and
    [ticks_add] is not called: it returns, and [stop] is the state it
    returns. *)
Definition stop (r : Robot) : Robot :=
  match drive 0 0 0 0 0 0 r with
  | Ok r' => r'
  | Raise _ => r
  end.

(** The [duty_u16] calls of one [stop()]. *)
Definition stop_writes : list (Motor * nat * Z) :=
  [ (M1, 0%nat, 0); (M1, 1%nat, 0); (M2, 0%nat, 0); (M2, 1%nat, 0);
    (M3, 0%nat, 0); (M3, 1%nat, 0); (M4, 0%nat, 0); (M4, 1%nat, 0) ].

(** The auto-stop test at the end of one round of [while True]; [now] is
    its own reading of [ticks_ms()]. *)
Definition motor_check (now : Z) (r : Robot) : Robot :=
  if (0 <? motor_stop_time r) && (motor_stop_time r <? now) then
    set_motor_stop_time 0 (stop r)
  else r.

(** One round of the [while True] loop of [run] (without the sleep):
    [now] and [now_fade] are the readings of [update], [now_motor] the one
    of the auto-stop test. *)
Definition loop_iteration {FO : FloatOps} (now now_fade now_motor : Z)
    (r : Robot) : result Robot :=
  a ← update now now_fade (anim r);
  Ok (motor_check now_motor (set_anim a r)).

(** ** Assets *)

Definition face1 : Frame := [0x0e; 0x11; 0x11; 0x11; 0x8e; 0x40; 0x20; 0x20; 0x20; 0x20; 0x40; 0x8e; 0x11; 0x11; 0x11; 0x0e].
Definition face2 : Frame := [0x0e; 0x11; 0x11; 0x0e; 0x00; 0x60; 0x90; 0x90; 0x90; 0x90; 0x60; 0x00; 0x0e; 0x11; 0x11; 0x0e].
Definition flo : Frame := [0x00; 0x7e; 0x12; 0x12; 0x02; 0x00; 0x7e; 0x40; 0x40; 0x40; 0x00; 0x3c; 0x42; 0x42; 0x3c; 0x00].
Definition f1 : Frame := [0x06; 0x09; 0x09; 0x06; 0x00; 0x60; 0x40; 0x40; 0x40; 0x40; 0x60; 0x00; 0x06; 0x09; 0x09; 0x06].
Definition f2 : Frame := [0x04; 0x0a; 0x0a; 0x04; 0x00; 0x60; 0x40; 0x40; 0x40; 0x40; 0x60; 0x00; 0x04; 0x0a; 0x0a; 0x04].
Definition f3 : Frame := [0x04; 0x08; 0x08; 0x04; 0x00; 0x60; 0x40; 0x40; 0x40; 0x40; 0x60; 0x00; 0x04; 0x08; 0x08; 0x04].
Definition f4 : Frame := [0x06; 0x09; 0x09; 0x06; 0x00; 0x60; 0x90; 0x90; 0x90; 0x90; 0x60; 0x00; 0x06; 0x09; 0x09; 0x06].

Definition r1 : Frame := [0x11; 0xd2; 0x34; 0x00; 0x07; 0xe0; 0x00; 0x00; 0x07; 0xe0; 0x00; 0x00; 0x07; 0xe4; 0x22; 0x22].
Definition r2 : Frame := [0x88; 0x4b; 0x2c; 0x00; 0xe0; 0x07; 0x00; 0x00; 0xe0; 0x07; 0x00; 0x00; 0xe0; 0x27; 0x44; 0x44].
Definition r3 : Frame := [0x44; 0x44; 0x27; 0xe0; 0x00; 0x00; 0x07; 0xe0; 0x00; 0x00; 0x07; 0xe0; 0x00; 0x2c; 0x4b; 0x88].
Definition r4 : Frame := [0x22; 0x22; 0xe4; 0x07; 0x00; 0x00; 0xe0; 0x07; 0x00; 0x00; 0xe0; 0x07; 0x00; 0x34; 0xd2; 0x11].

Definition k1 : Frame := [0x00; 0x00; 0x00; 0x00; 0x3c; 0x24; 0xe7; 0x81; 0x81; 0xe7; 0x24; 0x3c; 0x00; 0x00; 0x00; 0x00].
Definition k2 : Frame := [0x00; 0x00; 0x00; 0x00; 0x3c; 0x3c; 0xff; 0xff; 0xff; 0xff; 0x3c; 0x3c; 0x00; 0x00; 0x00; 0x00].
Definition k3 : Frame := [0x00; 0x00; 0x00; 0x00; 0x00; 0x18; 0x18; 0x7e; 0x7e; 0x18; 0x18; 0x00; 0x00; 0x00; 0x00; 0x00].
(** The blank frame: sixteen bytes [0x00]. *)
Definition e : Frame := replicate 16 0x00.

Definition matrix_anim_talk : list Frame := [face1; face2].
Definition matrix_anim_blink : list Frame := [f1; f2; f3; f2; f1; f1; f1; f4; f4; f1].
Definition rotate : list Frame := [r1; r2; r3; r4].
Definition kreuz1 : list Frame := [k3; k2; k1].
Definition kreuz2 : list Frame := [k3; e].

Definition C_WARM : Color := (140, 100, 20).
Definition C_RED : Color := (150, 0, 0).
Definition C_BLUE : Color := (0, 0, 150).
Definition C_OFF : Color := (0, 0, 0).

Definition frame_blue_A : list Color :=
  [C_WARM; C_BLUE; C_BLUE; C_RED; C_RED; C_OFF; C_OFF; C_WARM].
Definition frame_blue_B : list Color :=
  [C_WARM; C_OFF; C_OFF; C_RED; C_RED; C_BLUE; C_BLUE; C_WARM].

Definition seq_custom_blink : list Step :=
  [(TList frame_blue_A, 300); (TList frame_blue_B, 300)].
Definition seq_breath : list Step :=
  [(TColor (0, 60, 0), 1500); (TColor (0, 2, 0), 1500)].
Definition seq_police : list Step :=
  [(TColor (150, 0, 0), 100); (TColor (0, 0, 0), 50);
   (TColor (0, 0, 150), 100); (TColor (0, 0, 0), 50)].
Definition seq_rainbow : list Step :=
  [(TColor (100, 0, 0), 500); (TColor (80, 80, 0), 500);
   (TColor (0, 100, 0), 500); (TColor (0, 80, 80), 500);
   (TColor (0, 0, 100), 500); (TColor (80, 0, 80), 500)].

(** One round of the first loop building [seq_kitt]. *)
Definition kitt_up (i : nat) : Step :=
  let frame := <[i:=(150, 0, 0)]> (replicate 8 (0, 0, 0)) in
  let frame := if (0 <? i)%nat then <[(i - 1)%nat:=(40, 0, 0)]> frame else frame in
  (TList frame, 100).

(** One round of the second loop. *)
Definition kitt_down (i : nat) : Step :=
  let frame := <[i:=(150, 0, 0)]> (replicate 8 (0, 0, 0)) in
  let frame := if (i <? 7)%nat then <[(i + 1)%nat:=(40, 0, 0)]> frame else frame in
  (TList frame, 100).

(** [range(8)] then [range(6, 0, -1)]. *)
Definition seq_kitt : list Step :=
  map kitt_up (seq 0 8) ++ map kitt_down (rev (seq 1 6)).

(** ** Start-up and the infrared dispatcher *)

(** [leds = NeoPixel(machine.Pin(16), 8)]: eight pixels, all off. *)
Definition leds : list Color := replicate 8 (0, 0, 0).

(** The module-level state when [run] is entered. *)
Definition robot0 : Robot :=
  {| anim := init leds; motor_stop_time := 0; pwm_writes := [] |}.

(** [display_frame(frame)] called from the dispatcher.  It is the function
    the engine holds as [matrix_func], so the call goes to the same log;
    what the function sends over I2C is the driver's side. *)
Definition display_frame (frame : Frame) (r : Robot) : Robot :=
  set_anim (matrix_func frame (anim r)) r.

(** The codes [ir_callback] compares [data] with. *)
Definition dispatch_codes : list Z :=
  [64; 25; 7; 9; 68; 67; 69; 74; 71; 21; 22; 13; 12; 24; 94; 8; 28; 90; 66; 82].

(** Run an engine method that may raise on [anim]. *)
Definition on_anim (f : Engine → result Engine) (r : Robot) : result Robot :=
  a ← f (anim r); Ok (set_anim a r).

(** [ir_callback(data, addr, ctrl)]; [now] is the reading of [ticks_ms()]
    the selected action takes, if it takes one. *)
Definition ir_callback (now : Z) (data : Z) (r : Robot) : result Robot :=
  if data <? 0 then Ok r
  (* MOVEMENT *)
  else if data =? 64 then drive now 1 1 1 1 400 r
  else if data =? 25 then drive now (-1) (-1) (-1) (-1) 400 r
  else if data =? 7 then drive now (-1) 1 1 (-1) 400 r
  else if data =? 9 then drive now 1 (-1) (-1) 1 400 r
  else if data =? 68 then drive now (-1) 1 (-1) 1 400 r
  else if data =? 67 then drive now 1 (-1) 1 (-1) 400 r
  (* RGB *)
  else if data =? 69 then on_anim (play_rgb_sequence now seq_police true) r
  else if data =? 74 then on_anim (play_rgb_sequence now seq_custom_blink true) r
  else if data =? 71 then on_anim (play_rgb_sequence now seq_rainbow true) r
  else if data =? 21 then on_anim (play_rgb_sequence now seq_breath true) r
  else if data =? 22 then on_anim (play_rgb_sequence now seq_kitt true) r
  else if data =? 13 then Ok (set_anim (stop_rgb (anim r)) r)
  (* MATRIX *)
  else if data =? 12 then
    Ok (display_frame face1 (set_anim (stop_matrix (anim r)) r))
  else if data =? 24 then
    Ok (set_anim (play_matrix now matrix_anim_talk 200 (anim r)) r)
  else if data =? 94 then
    Ok (set_anim (play_matrix now matrix_anim_blink 80 (anim r)) r)
  else if data =? 8 then
    Ok (display_frame flo (set_anim (stop_matrix (anim r)) r))
  else if data =? 28 then
    Ok (set_anim (play_matrix now rotate 80 (anim r)) r)
  else if data =? 90 then
    Ok (set_anim (play_matrix now kreuz1 300 (anim r)) r)
  else if data =? 66 then
    Ok (set_anim (play_matrix now kreuz2 300 (anim r)) r)
  else if data =? 82 then
    Ok (display_frame e (set_anim (stop_matrix (anim r)) r))
  else Ok r.

(** ** Vocabulary of the properties *)

(** The targets [fade_to] does not raise on. *)
Definition target_ok (target : Target) : Prop := target ≠ TList [].

Definition step_ok (step : Step) : Prop := target_ok (fst step).

Definition is_byte (v : Z) : Prop := 0 <= v < 256.

(** A colour whose channels are in the range of the strip, 0 to 255. *)
Definition color_ok (c : Color) : Prop :=
  is_byte c.1.1 ∧ is_byte c.1.2 ∧ is_byte c.2.

(** The vector a target stands for on a strip of [N] LEDs, as the
    specification has it: a single colour tuple goes to all [N] LEDs, a
    list of [N] colour tuples is used per LED, and a list of any other
    length has its first element go to all [N] LEDs. *)
Definition stands_for (N : nat) (target : Target) (v : list Color) : Prop :=
  match target with
  | TColor c => v = replicate N c
  | TList l =>
      (length l = N ∧ v = l) ∨
      (length l ≠ N ∧ ∃ c0, l !! 0%nat = Some c0 ∧ v = replicate N c0)
  end.

(** The state [fade_to] leaves when the target normalises to [v]. *)
Definition faded (now : Z) (v : list Color) (duration_ms : Z) (e : Engine)
  : Engine :=
  set_rgb_animating true
    (set_rgb_start_time now
       (set_rgb_duration duration_ms
          (set_rgb_target_colors v (set_rgb_start_colors (np e) e)))).

(** The engine right after [anim.fade_to((0, 30, 0), 1000)], the start-up
    fade of [run], read at tick 0. *)
Definition booted : Engine :=
  faded 0 (replicate 8 (0, 30, 0)) 1000 (init leds).

(** The engine invariant: both colour vectors of the fade have one entry
    per LED, and an active sequence has its cursor inside the list and no
    step [fade_to] would raise on. *)
Record wf (e : Engine) : Prop := {
  wf_start : length (rgb_start_colors e) = num_leds e;
  wf_target : length (rgb_target_colors e) = num_leds e;
  wf_idx : rgb_seq_active e = true →
           (rgb_seq_idx e < length (rgb_sequence e))%nat;
  wf_steps : rgb_seq_active e = true → Forall step_ok (rgb_sequence e);
}.

(** The strip after the loop of a completed fade and its [np.write()]. *)
Definition target_shown (e : Engine) : Engine :=
  np_write (set_np (map as_pixel (rgb_target_colors e)) e).

(** Where the cursor of an active sequence goes after a completed step;
    [None] when the sequence ends. *)
Definition next_idx (e : Engine) : option nat :=
  if (length (rgb_sequence e) <=? rgb_seq_idx e + 1)%nat then
    if rgb_seq_loop e then Some 0%nat else None
  else Some (rgb_seq_idx e + 1)%nat.

(** What the matrix block may change. *)
Definition matrix_touch (calls : list Frame) (idx : nat) (last_tick : Z)
    (e : Engine) : Engine :=
  set_matrix_calls calls (set_matrix_idx idx (set_matrix_last_tick last_tick e)).

(** The engine [e] made to cycle [frames], its cursor on [idx]. *)
Definition cycling (frames : list Frame) (delay : Z) (idx : nat)
    (last_tick : Z) (calls : list Frame) (e : Engine) : Engine :=
  set_matrix_calls calls
    (set_matrix_idx idx
       (set_matrix_last_tick last_tick
          (set_matrix_animating true
             (set_matrix_delay delay (set_matrix_frames frames e))))).

(** Is the running fade over at the reading [now]? *)
Definition fade_due (now : Z) (e : Engine) : bool :=
  rgb_animating e && (rgb_duration e <=? ticks_diff now (rgb_start_time e)).

(** Everything the RGB block reads besides the contents of the strip. *)
Definition session (e : Engine) :=
  (num_leds e, rgb_animating e, rgb_seq_active e, rgb_sequence e,
   rgb_seq_idx e, rgb_seq_loop e, rgb_start_time e, rgb_duration e,
   rgb_start_colors e, rgb_target_colors e).

Section Runs.
Context {FO : FloatOps}.

(** The vector the interpolation loop computes. *)
Definition lerp_all (progress : float) (e : Engine) : list Color :=
  zip_with (λ s t, lerp s t progress) (rgb_start_colors e) (rgb_target_colors e).

(** A colour all of whose channels are represented exactly. *)
Definition exact_color (c : Color) : Prop :=
  exact c.1.1 ∧ exact c.1.2 ∧ exact c.2.

(** Start, target and their difference are represented exactly, channel
    by channel. *)
Definition exact_fade (s t : Color) : Prop :=
  exact_color s ∧ exact_color t ∧
  exact (t.1.1 - s.1.1) ∧ exact (t.1.2 - s.1.2) ∧ exact (t.2 - s.2).

(** [update] at each pair of readings in turn; the number counts the calls
    that found the running fade over. *)
Fixpoint run_ticks (ticks : list (Z * Z)) (e : Engine) : result (nat * Engine) :=
  match ticks with
  | [] => Ok (0%nat, e)
  | (now, now_fade) :: rest =>
      e' ← update now now_fade e;
      '(n, e'') ← run_ticks rest e';
      Ok (((if fade_due now e then 1 else 0) + n)%nat, e'')
  end.

End Runs.

(** The matrix block of [update] at each reading in turn. *)
Fixpoint matrix_ticks (ticks : list Z) (e : Engine) : result Engine :=
  match ticks with
  | [] => Ok e
  | now :: rest => e' ← matrix_logic now e; matrix_ticks rest e'
  end.

(** The auto-stop test of the main loop at each reading in turn. *)
Fixpoint motor_ticks (ticks : list Z) (r : Robot) : Robot :=
  match ticks with
  | [] => r
  | now :: rest => motor_ticks rest (motor_check now r)
  end.

(** The engine is fading towards step [i] of [sequence]. *)
Record playing (N : nat) (sequence : list Step) (loop : bool) (i : nat)
    (e : Engine) : Prop := {
  pl_wf : wf e;
  pl_leds : num_leds e = N;
  pl_sequence : rgb_sequence e = sequence;
  pl_loop : rgb_seq_loop e = loop;
  pl_active : rgb_seq_active e = true;
  pl_animating : rgb_animating e = true;
  pl_idx : rgb_seq_idx e = i;
  pl_step : ∃ target duration,
      sequence !! i = Some (target, duration) ∧
      rgb_duration e = duration ∧
      determine_target N target = Ok (rgb_target_colors e);
}.

(** The sequence session is over and the strip shows its last step. *)
Record finished (N : nat) (sequence : list Step) (e : Engine) : Prop := {
  fin_leds : num_leds e = N;
  fin_active : rgb_seq_active e = false;
  fin_animating : rgb_animating e = false;
  fin_shown : ∃ target duration v,
      last sequence = Some (target, duration) ∧
      determine_target N target = Ok v ∧
      np e = map as_pixel v ∧
      last (np_written e) = Some (np e);
}.

(** ** The matrix driver, shutdown and events

    The parts of the module around the engine: the HT16K33 driver on the
    I2C bus (the [try] branch; in the [except] branch the three functions
    do nothing), the [KeyboardInterrupt] handler of [run], and the program
    as a whole driven by infrared callbacks and rounds of the loop. *)

(** One call on the bus: [i2c.writeto(addr, buf)] or
    [i2c.writeto_mem(addr, memaddr, buf)]. *)
Inductive i2c_op :=
| Writeto (addr : Z) (buf : list Z)
| WritetoMem (addr memaddr : Z) (buf : list Z).

Definition HT_ADDR : Z := 0x71.

(** [init_matrix()]. *)
Definition init_matrix : list i2c_op :=
  [Writeto HT_ADDR [0x21]; Writeto HT_ADDR [0x81]; Writeto HT_ADDR [0xef]].

(** [matrix_clear()]. *)
Definition matrix_clear : list i2c_op :=
  [WritetoMem HT_ADDR 0x00 (replicate 16 0x00)].

(** [buf[i] = v] on a [bytearray]: MicroPython stores the low byte of [v]. *)
Definition bytearray_set (buf : list Z) (i : nat) (v : Z) : result (list Z) :=
  setitem buf i (v mod 256).

(** The loop of [display_frame] on [interleaved = bytearray(16)]. *)
Definition interleave (linear_data : list Z) : result (list Z) :=
  for_each (seq 0 8)
    (λ i buf,
       a ← getitem linear_data i;
       buf ← bytearray_set buf (i * 2) a;
       b ← getitem linear_data (i + 8);
       bytearray_set buf (i * 2 + 1) b)
    (replicate 16 0).

(** [display_frame(linear_data)] as the calls it makes on the bus. *)
Definition display_frame_i2c (linear_data : list Z) : result (list i2c_op) :=
  if decide (length linear_data ≠ 16%nat) then Ok []
  else
    interleaved ← interleave linear_data;
    Ok [WritetoMem HT_ADDR 0x00 interleaved].

(** The handler of [KeyboardInterrupt] in [run]: [stop(); ir.close();
    leds.fill((0,0,0)); leds.write(); matrix_clear()], as the state it
    leaves and the calls it makes on the bus. *)
Definition shutdown (r : Robot) : Robot * list i2c_op :=
  let r := stop r in
  let a := anim r in
  let a := set_np (replicate (length (np a)) (0, 0, 0)) a in
  let a := np_write a in
  (set_anim a r, matrix_clear).

(** [run] up to its loop: [init_matrix(); matrix_clear(); ...;
    anim.fade_to((0, 30, 0), 1000)], as the state and the bus calls. *)
Definition startup (now : Z) : result (Robot * list i2c_op) :=
  a ← fade_to now (TColor (0, 30, 0)) 1000 (anim robot0);
  Ok (set_anim a robot0, init_matrix ++ matrix_clear).

(** What happens to the running program: the decoder calls
    [ir_callback(data, ...)], or the loop of [run] makes one round.  A
    callback is taken between two rounds. *)
Inductive event :=
| IrCode (now data : Z)
| LoopRound (now now_fade now_motor : Z).

Definition do_event {FO : FloatOps} (ev : event) (r : Robot) : result Robot :=
  match ev with
  | IrCode now data => ir_callback now data r
  | LoopRound now now_fade now_motor => loop_iteration now now_fade now_motor r
  end.

Fixpoint run_events {FO : FloatOps} (evs : list event) (r : Robot)
  : result Robot :=
  match evs with
  | [] => Ok r
  | ev :: rest => r' ← do_event ev r; run_events rest r'
  end.

(** A call of a method of [AnimationEngine]. *)
Inductive call :=
| FadeTo (now : Z) (target : Target) (duration_ms : Z)
| PlayRgbSequence (now : Z) (sequence : list Step) (loop : bool)
| StopRgb
| PlayMatrix (now : Z) (frames_list : list Frame) (delay_ms : Z)
| StopMatrix
| Update (now now_fade : Z).

Definition do_call {FO : FloatOps} (c : call) (e : Engine) : result Engine :=
  match c with
  | FadeTo now target duration_ms => fade_to now target duration_ms e
  | PlayRgbSequence now sequence loop => play_rgb_sequence now sequence loop e
  | StopRgb => Ok (stop_rgb e)
  | PlayMatrix now frames_list delay_ms =>
      Ok (play_matrix now frames_list delay_ms e)
  | StopMatrix => Ok (stop_matrix e)
  | Update now now_fade => update now now_fade e
  end.

Fixpoint do_calls {FO : FloatOps} (cs : list call) (e : Engine)
  : result Engine :=
  match cs with
  | [] => Ok e
  | c :: rest => e' ← do_call c e; do_calls rest e'
  end.

(** *** Vocabulary of the further properties *)

(** The arguments [fade_to] and [play_rgb_sequence] do not raise on. *)
Definition call_ok (c : call) : Prop :=
  match c with
  | FadeTo _ target _ => target_ok target
  | PlayRgbSequence _ sequence _ => sequence ≠ [] ∧ Forall step_ok sequence
  | _ => True
  end.

(** A frame [display_frame] accepts: sixteen bytes. *)
Definition frame_ok (frame : Frame) : Prop :=
  length frame = 16%nat ∧ Forall is_byte frame.

(** The linear frame read back from the interleaved layout. *)
Definition deinterleave (buf : list Z) : list Z :=
  omap (λ i, buf !! (i * 2)%nat) (seq 0 8) ++
  omap (λ i, buf !! (i * 2 + 1)%nat) (seq 0 8).

#[global] Instance Motor_eq_dec : EqDecision Motor.
Proof. solve_decision. Defined.

(** The duty a pin of a motor is left at: the last [duty_u16] on it. *)
Definition duty_now (writes : list (Motor * nat * Z)) (m : Motor) (pin : nat)
  : option Z :=
  last (omap (λ '(m', pin', v),
                if decide (m' = m ∧ pin' = pin) then Some v else None)
             writes).

(** The state [drive(fl, fr, rl, rr, ...)] returns when its deadline is
    [deadline]. *)
Definition driven (fl fr rl rr deadline : Z) (r : Robot) : Robot :=
  set_motor_stop_time deadline
    (set_pwm_writes
       (pwm_writes r ++ (duty_pair M1 fl ++ duty_pair M2 fr ++
                         duty_pair M3 rl ++ duty_pair M4 rr)) r).

(** The direction [drive(fl, fr, rl, rr, ...)] gives motor [m]. *)
Definition direction (fl fr rl rr : Z) (m : Motor) : Z :=
  match m with M1 => fl | M2 => fr | M3 => rl | M4 => rr end.

(** The codes of the three groups of [ir_callback]. *)
Definition movement_codes : list Z := [64; 25; 7; 9; 68; 67].
Definition rgb_codes : list Z := [69; 74; 71; 21; 22; 13].
Definition matrix_codes : list Z := [12; 24; 94; 8; 28; 90; 66; 82].

(** The matrix side of the engine. *)
Definition matrix_part (e : Engine) :=
  (matrix_calls e, matrix_animating e, matrix_frames e, matrix_delay e,
   matrix_last_tick e, matrix_idx e).

(** The RGB side of the engine: strip, write log and fade session. *)
Definition rgb_part (e : Engine) := (np e, np_written e, session e).

(** Frames [0 .. n] of the cycle through [frames]. *)
Definition cycle_upto (frames : list Frame) (n : nat) : list Frame :=
  omap (λ j, frames !! (j mod length frames)%nat) (seq 0 (S n)).

(** The engine cycles [frames] and has rendered frames [0 .. k] of the
    cycle since the sink held [calls]. *)
Definition cycle_at (frames calls : list Frame) (k : nat) (e : Engine) : Prop :=
  matrix_animating e = true ∧ matrix_frames e = frames ∧
  matrix_idx e = (k mod length frames)%nat ∧
  matrix_calls e = calls ++ cycle_upto frames k.

(** Every frame the engine holds or has rendered is one [display_frame]
    accepts. *)
Definition frames_ok (e : Engine) : Prop :=
  Forall frame_ok (matrix_frames e) ∧ Forall frame_ok (matrix_calls e).

(** The frame lists and the sequences the dispatcher plays. *)
Definition matrix_assets : list (list Frame) :=
  [matrix_anim_talk; matrix_anim_blink; rotate; kreuz1; kreuz2].

Definition rgb_assets : list (list Step) :=
  [seq_police; seq_custom_blink; seq_rainbow; seq_breath; seq_kitt].

(** The single frames the dispatcher shows. *)
Definition still_frames : list Frame := [face1; flo; e].

#[global] Instance is_byte_dec v : Decision (is_byte v).
Proof. unfold is_byte. apply _. Defined.

#[global] Instance frame_ok_dec frame : Decision (frame_ok frame).
Proof. unfold frame_ok. apply _. Defined.

#[global] Instance Target_eq_dec : EqDecision Target.
Proof. solve_decision. Defined.

#[global] Instance step_ok_dec step : Decision (step_ok step).
Proof. unfold step_ok, target_ok. apply _. Defined.

(** What holds of the module-level state all along [run]: the engine is
    well formed, the strip has its eight pixels, and every frame is one
    the driver accepts. *)
Definition robot_ok (r : Robot) : Prop :=
  wf (anim r) ∧ num_leds (anim r) = 8%nat ∧ frames_ok (anim r).

(** * Properties *)

(** ** The rationals satisfy the laws of the arithmetic *)

Lemma Qtrunc_floor q : (0 <= q)%Q → Qtrunc q = Qfloor q.
Proof.
  destruct q as [n d]. unfold Qtrunc, Qfloor, Qle. simpl. intros Hn.
  apply Z.quot_div_nonneg; lia.
Qed.

Lemma Qtrunc_neg q : (q <= 0)%Q → Qtrunc q = - Qfloor (- q).
Proof.
  destruct q as [n d]. unfold Qtrunc, Qfloor, Qle. simpl. intros Hn.
  rewrite <- (Z.opp_involutive n) at 1.
  rewrite Z.quot_opp_l by lia. f_equal. apply Z.quot_div_nonneg; lia.
Qed.

Lemma Qtrunc_mono x y : (x <= y)%Q → Qtrunc x <= Qtrunc y.
Proof.
  intros Hxy.
  destruct (Qlt_le_dec x 0) as [Hx|Hx]; destruct (Qlt_le_dec y 0) as [Hy|Hy].
  - rewrite (Qtrunc_neg x), (Qtrunc_neg y) by (apply Qlt_le_weak; assumption).
    apply Z.opp_le_mono. rewrite !Z.opp_involutive.
    apply Qfloor_resp_le, Qopp_le_compat, Hxy.
  - rewrite (Qtrunc_neg x), (Qtrunc_floor y)
      by first [assumption | apply Qlt_le_weak; assumption].
    assert (Hx' : (0 <= - x)%Q) by (apply (Qopp_le_compat x 0), Qlt_le_weak, Hx).
    pose proof (Qfloor_resp_le _ _ Hx') as H0.
    pose proof (Qfloor_resp_le _ _ Hy) as H1.
    change (Qfloor 0) with 0 in H0, H1. lia.
  - exfalso. apply (Qlt_irrefl 0).
    apply Qle_lt_trans with x; [exact Hx|]. apply Qle_lt_trans with y; assumption.
  - rewrite (Qtrunc_floor _ Hx), (Qtrunc_floor _ Hy). apply Qfloor_resp_le, Hxy.
Qed.

Lemma Qtrunc_inject z : Qtrunc (inject_Z z) = z.
Proof. unfold Qtrunc. simpl. apply Z.quot_1_r. Qed.

Lemma Qtrunc_toward_zero_pos x : (0 <= x)%Q → (inject_Z (Qtrunc x) <= x)%Q.
Proof. intros Hx. rewrite (Qtrunc_floor x Hx). apply Qfloor_le. Qed.

Lemma Qtrunc_toward_zero_neg x : (x <= 0)%Q → (x <= inject_Z (Qtrunc x))%Q.
Proof.
  intros Hx. rewrite (Qtrunc_neg x Hx), inject_Z_opp.
  rewrite <- (Qopp_involutive x) at 1. apply Qopp_le_compat, Qfloor_le.
Qed.

Lemma Qeq_both (x y : Q) : (x == y)%Q → (x <= y)%Q ∧ (y <= x)%Q.
Proof. intros E. split; rewrite E; apply Qle_refl. Qed.

Lemma inject_Z_pos d : 0 < d → (0 < inject_Z d)%Q.
Proof. intros Hd. change 0%Q with (inject_Z 0). rewrite <- Zlt_Qlt. exact Hd. Qed.

Lemma inject_Z_mono a b : a <= b → (inject_Z a <= inject_Z b)%Q.
Proof. intros Hab. rewrite <- Zle_Qle. exact Hab. Qed.

Lemma Qplus_mono_r c x y : (x <= y)%Q → (c + x <= c + y)%Q.
Proof. intros Hxy. apply Qplus_le_compat; [apply Qle_refl | exact Hxy]. Qed.

Lemma Qmult_mono_pos c x y : (0 <= c)%Q → (x <= y)%Q → (c * x <= c * y)%Q.
Proof.
  intros Hc Hxy. rewrite (Qmult_comm c x), (Qmult_comm c y).
  apply Qmult_le_compat_r; assumption.
Qed.

Lemma Qmult_mono_neg c x y : (c <= 0)%Q → (x <= y)%Q → (c * y <= c * x)%Q.
Proof.
  intros Hc Hxy.
  assert (Hc' : (0 <= - c)%Q) by (apply (Qopp_le_compat c 0), Hc).
  pose proof (Qmult_le_compat_r x y (- c) Hxy Hc') as Hm.
  apply Qopp_le_compat in Hm.
  assert (E : ∀ u, (- (u * - c) == c * u)%Q) by (intros u; ring).
  rewrite !E in Hm. exact Hm.
Qed.

Lemma Qdiv_mono d x y :
  0 < d → (x <= y)%Q → (x / inject_Z d <= y / inject_Z d)%Q.
Proof.
  intros Hd Hxy. unfold Qdiv. apply Qmult_le_compat_r; [exact Hxy|].
  apply Qinv_le_0_compat, Qlt_le_weak, inject_Z_pos, Hd.
Qed.

Lemma Qdiv_zero d : 0 < d → feq (FO := exact_ops) (0 / inject_Z d)%Q 0%Q.
Proof. intros Hd. apply Qeq_both. unfold Qdiv. ring. Qed.

Lemma Qdiv_same d :
  0 < d → feq (FO := exact_ops) (inject_Z d / inject_Z d)%Q 1%Q.
Proof.
  intros Hd. apply Qeq_both. unfold Qdiv. apply Qmult_inv_r.
  intros E. pose proof (inject_Z_pos d Hd) as Hp. rewrite E in Hp.
  exact (Qlt_irrefl 0 Hp).
Qed.

Lemma Qmult_zero k : feq (FO := exact_ops) (inject_Z k * 0)%Q 0%Q.
Proof. apply Qeq_both. ring. Qed.

Lemma Qmult_one c : feq (FO := exact_ops) (c * 1)%Q c.
Proof. apply Qeq_both. ring. Qed.

Lemma Qplus_zero c : feq (FO := exact_ops) (c + 0)%Q c.
Proof. apply Qeq_both. ring. Qed.

Lemma Qplus_inject a b :
  feq (FO := exact_ops) (inject_Z a + inject_Z b)%Q (inject_Z (a + b)).
Proof. apply Qeq_both. rewrite inject_Z_plus. reflexivity. Qed.

(** The arithmetic without rounding: every integer is exact. *)
Definition exact_arith : FloatArith := {|
  float_ops := exact_ops;
  fle_refl := Qle_refl;
  fle_trans := Qle_trans;
  of_int_mono := inject_Z_mono;
  fadd_mono := Qplus_mono_r;
  fmul_mono_pos := Qmult_mono_pos;
  fmul_mono_neg := Qmult_mono_neg;
  fdiv_mono := Qdiv_mono;
  trunc_mono := Qtrunc_mono;
  trunc_of_int := λ z _, Qtrunc_inject z;
  trunc_toward_zero_pos := Qtrunc_toward_zero_pos;
  trunc_toward_zero_neg := Qtrunc_toward_zero_neg;
  fdiv_zero := Qdiv_zero;
  fdiv_same := Qdiv_same;
  fmul_zero := Qmult_zero;
  fmul_one := Qmult_one;
  fadd_zero := Qplus_zero;
  fadd_exact := λ a b _ _ _, Qplus_inject a b;
|}.

(** ** The fixed-point arithmetic satisfies the laws *)

Lemma FIX_pos : 0 < FIX.
Proof. reflexivity. Qed.

Lemma fixed_fmul_mono_pos c x y :
  0 * FIX <= c → x <= y → (c * x) / FIX <= (c * y) / FIX.
Proof.
  intros Hc Hxy. apply Z.div_le_mono; [exact FIX_pos|].
  apply Z.mul_le_mono_nonneg_l; lia.
Qed.

Lemma fixed_fmul_mono_neg c x y :
  c <= 0 * FIX → x <= y → (c * y) / FIX <= (c * x) / FIX.
Proof.
  intros Hc Hxy. apply Z.div_le_mono; [exact FIX_pos|].
  apply Z.mul_le_mono_nonpos_l; lia.
Qed.

Lemma fixed_fdiv_mono d x y :
  0 < d → x <= y → (x * FIX) / (d * FIX) <= (y * FIX) / (d * FIX).
Proof.
  intros Hd Hxy. pose proof FIX_pos as HF.
  apply Z.div_le_mono; [lia|]. apply Z.mul_le_mono_nonneg_r; lia.
Qed.

Lemma fixed_trunc_mono x y : x <= y → x ÷ FIX <= y ÷ FIX.
Proof. intros Hxy. apply Z.quot_le_mono; [exact FIX_pos|exact Hxy]. Qed.

Lemma fixed_trunc_of_int z : (z * FIX) ÷ FIX = z.
Proof. apply Z.quot_mul. pose proof FIX_pos. lia. Qed.

Lemma fixed_toward_zero_pos x : 0 * FIX <= x → (x ÷ FIX) * FIX <= x.
Proof.
  intros Hx. pose proof FIX_pos as HF.
  pose proof (Z.mul_quot_le x FIX ltac:(lia) ltac:(lia)). lia.
Qed.

Lemma fixed_toward_zero_neg x : x <= 0 * FIX → x <= (x ÷ FIX) * FIX.
Proof.
  intros Hx. pose proof FIX_pos as HF.
  pose proof (Z.mul_quot_ge x FIX ltac:(lia) ltac:(lia)). lia.
Qed.

Lemma fixed_fdiv_zero d :
  0 < d → feq (FO := fixed_ops) ((0 * FIX * FIX) / (d * FIX)) (0 * FIX).
Proof.
  intros Hd. pose proof FIX_pos as HF.
  replace (0 * FIX * FIX) with 0 by lia.
  rewrite Z.div_0_l by lia. unfold feq. simpl. lia.
Qed.

Lemma fixed_fdiv_same d :
  0 < d → feq (FO := fixed_ops) ((d * FIX * FIX) / (d * FIX)) (1 * FIX).
Proof.
  intros Hd. pose proof FIX_pos as HF.
  replace (d * FIX * FIX) with (FIX * (d * FIX)) by lia.
  rewrite Z.div_mul by lia. unfold feq. simpl. lia.
Qed.

Lemma fixed_fmul_zero k :
  feq (FO := fixed_ops) ((k * FIX * (0 * FIX)) / FIX) (0 * FIX).
Proof.
  replace (k * FIX * (0 * FIX)) with 0 by lia.
  rewrite Z.div_0_l by (pose proof FIX_pos; lia). unfold feq. simpl. lia.
Qed.

Lemma fixed_fmul_one c : feq (FO := fixed_ops) ((c * (1 * FIX)) / FIX) c.
Proof.
  pose proof FIX_pos as HF. replace (c * (1 * FIX)) with (c * FIX) by lia.
  rewrite Z.div_mul by lia. unfold feq. simpl. lia.
Qed.

Lemma fixed_fadd_zero c : feq (FO := fixed_ops) (c + 0 * FIX) c.
Proof. unfold feq. simpl. lia. Qed.

Lemma fixed_fadd_exact a b :
  feq (FO := fixed_ops) (a * FIX + b * FIX) ((a + b) * FIX).
Proof. unfold feq. simpl. lia. Qed.

(** The fixed-point arithmetic: it rounds, and every integer is exact. *)
Definition fixed_arith : FloatArith := {|
  float_ops := fixed_ops;
  fle_refl := Z.le_refl;
  fle_trans := Z.le_trans;
  of_int_mono := λ a b H, Z.mul_le_mono_nonneg_r a b FIX (Z.lt_le_incl _ _ FIX_pos) H;
  fadd_mono := λ c x y H, proj1 (Z.add_le_mono_l x y c) H;
  fmul_mono_pos := fixed_fmul_mono_pos;
  fmul_mono_neg := fixed_fmul_mono_neg;
  fdiv_mono := fixed_fdiv_mono;
  trunc_mono := fixed_trunc_mono;
  trunc_of_int := λ z _, fixed_trunc_of_int z;
  trunc_toward_zero_pos := fixed_toward_zero_pos;
  trunc_toward_zero_neg := fixed_toward_zero_neg;
  fdiv_zero := fixed_fdiv_zero;
  fdiv_same := fixed_fdiv_same;
  fmul_zero := fixed_fmul_zero;
  fmul_one := fixed_fmul_one;
  fadd_zero := fixed_fadd_zero;
  fadd_exact := λ a b _ _ _, fixed_fadd_exact a b;
|}.

(** ** The clock *)

Lemma TICKS_PERIOD_eq : TICKS_PERIOD = 1073741824.
Proof. reflexivity. Qed.

Lemma ticks_after_is_tick t d : is_tick (ticks_after t d).
Proof.
  unfold is_tick, ticks_after. rewrite TICKS_PERIOD_eq.
  apply Z.mod_pos_bound. lia.
Qed.

(** Across any number of wraps of the counter, [ticks_diff] recovers a
    distance of less than half a period. *)
Lemma ticks_diff_after t d :
  - (TICKS_PERIOD / 2) <= d < TICKS_PERIOD / 2 →
  ticks_diff (ticks_after t d) t = d.
Proof.
  unfold ticks_diff, ticks_after. rewrite TICKS_PERIOD_eq.
  change (1073741824 / 2) with 536870912. intros Hd.
  replace ((t + d) mod 1073741824 - t + 536870912)
    with ((d + 536870912) + (-1 * ((t + d) / 1073741824)) * 1073741824).
  - rewrite Z.mod_add by lia. rewrite Z.mod_small by lia. lia.
  - pose proof (Z.div_mod (t + d) 1073741824). lia.
Qed.

(** ** Indexing and loops over the strip *)

Lemma getitem_Some {A} (l : list A) i x : l !! i = Some x → getitem l i = Ok x.
Proof. intros H. unfold getitem. by rewrite H. Qed.

Lemma setitem_lt {A} (l : list A) i x :
  (i < length l)%nat → setitem l i x = Ok (<[i:=x]> l).
Proof. intros H. unfold setitem. by rewrite decide_True. Qed.

Lemma collect_getitem_from {A} (l : list A) k :
  collect (seq k (length l - k)) (getitem l) = Ok (drop k l).
Proof.
  remember (length l - k)%nat as m eqn:Hm.
  revert k Hm. induction m as [|m IH]; intros k Hm; simpl.
  - rewrite drop_ge by lia. reflexivity.
  - destruct (lookup_lt_is_Some_2 l k) as [x Hx]; [lia|].
    rewrite (getitem_Some _ _ _ Hx). simpl.
    rewrite IH by lia. simpl. by rewrite <- (drop_S _ _ _ Hx).
Qed.

(** [[l[i] for i in range(len(l))]] is a copy of [l]. *)
Lemma collect_getitem {A} (l : list A) :
  collect (seq 0 (length l)) (getitem l) = Ok l.
Proof.
  pose proof (collect_getitem_from l 0) as H.
  rewrite Nat.sub_0_r in H. exact H.
Qed.

(** A loop that stores [v[i]] at index [i] for every [i] leaves [v]. *)
Lemma for_each_fill {A} (body : nat → list A → result (list A)) (v : list A) :
  (∀ i b x, v !! i = Some x → (i < length b)%nat → body i b = Ok (<[i:=x]> b)) →
  ∀ m k buf,
    (k + m = length v)%nat → length buf = length v → take k buf = take k v →
    for_each (seq k m) body buf = Ok v.
Proof.
  intros Hbody. induction m as [|m IH]; intros k buf Hk Hlen Htake; simpl.
  - rewrite Nat.add_0_r in Hk. subst k.
    f_equal. rewrite <- (firstn_all buf), <- (firstn_all v), Hlen. exact Htake.
  - destruct (lookup_lt_is_Some_2 v k) as [x Hx]; [lia|].
    rewrite (Hbody k buf x Hx) by lia. simpl.
    apply IH.
    + lia.
    + by rewrite length_insert.
    + rewrite (take_S_r v k x Hx).
      rewrite (take_S_r (<[k:=x]> buf) k x).
      * rewrite take_insert_ge by lia. by rewrite Htake.
      * apply list_lookup_insert_eq. lia.
Qed.

(** ** What the strip stores *)

Lemma low_byte_is_byte v : is_byte (low_byte v).
Proof. unfold is_byte, low_byte. apply Z.mod_pos_bound. lia. Qed.

Lemma low_byte_small v : is_byte v → low_byte v = v.
Proof. unfold is_byte, low_byte. intros H. by apply Z.mod_small. Qed.

Lemma as_pixel_color_ok c : color_ok (as_pixel c).
Proof.
  destruct c as [[r g] b]. repeat split; apply low_byte_is_byte.
Qed.

(** A colour in the range of the strip is stored as it is. *)
Lemma as_pixel_small c : color_ok c → as_pixel c = c.
Proof.
  destruct c as [[r g] b]. intros (Hr & Hg & Hb). simpl in *.
  by rewrite !low_byte_small.
Qed.

Lemma as_pixels_small (v : list Color) :
  Forall color_ok v → map as_pixel v = v.
Proof.
  induction 1 as [|c v Hc _ IH]; simpl; [done|].
  by rewrite as_pixel_small, IH.
Qed.

Lemma as_pixels_color_ok (v : list Color) : Forall color_ok (map as_pixel v).
Proof. apply Forall_map, Forall_true, as_pixel_color_ok. Qed.

(** A loop that stores [v[i]] on the strip at index [i] for every [i]
    leaves [v] as the strip stores it. *)
Lemma for_each_np_fill (body : nat → list Color → result (list Color))
    (v : list Color) :
  (∀ i b x, v !! i = Some x → (i < length b)%nat →
            body i b = np_setitem b i x) →
  ∀ buf, length buf = length v →
         for_each (seq 0 (length v)) body buf = Ok (map as_pixel v).
Proof.
  intros Hbody buf Hlen.
  rewrite <- (length_map as_pixel v).
  apply for_each_fill.
  - intros i b y Hy Hi. rewrite list_lookup_fmap in Hy.
    destruct (v !! i) as [x|] eqn:Hx; [|done]. injection Hy as <-.
    rewrite (Hbody i b x Hx Hi). by apply setitem_lt.
  - reflexivity.
  - by rewrite length_map.
  - reflexivity.
Qed.

(** ** Targets and [fade_to] *)

Lemma determine_target_length n target v :
  determine_target n target = Ok v → length v = n.
Proof.
  destruct target as [c|[|c0 l]]; simpl.
  - intros [= <-]. apply length_replicate.
  - discriminate.
  - case_decide as E; intros [= <-].
    + exact E.
    + apply length_replicate.
Qed.

(** [determine_target] gives the vector the target stands for. *)
Lemma determine_target_stands_for n target v :
  determine_target n target = Ok v → stands_for n target v.
Proof.
  destruct target as [c|[|c0 l]]; simpl.
  - by intros [= <-].
  - discriminate.
  - case_decide as E; intros [= <-].
    + by left.
    + right. split; [exact E|]. by exists c0.
Qed.

Lemma determine_target_ok n target :
  target_ok target → ∃ v, determine_target n target = Ok v.
Proof.
  destruct target as [c|[|c0 l]]; simpl; intros Hok.
  - eauto.
  - by destruct Hok.
  - case_decide; eauto.
Qed.

Lemma fade_to_faded now target duration_ms e v :
  determine_target (num_leds e) target = Ok v →
  fade_to now target duration_ms e = Ok (faded now v duration_ms e).
Proof.
  intros Hv. unfold fade_to, num_leds. rewrite collect_getitem. simpl.
  unfold num_leds in Hv. simpl. rewrite Hv. reflexivity.
Qed.

Lemma fade_to_inv now target duration_ms e e1 :
  fade_to now target duration_ms e = Ok e1 →
  ∃ v, determine_target (num_leds e) target = Ok v ∧
       e1 = faded now v duration_ms e.
Proof.
  intros H. destruct (determine_target (num_leds e) target) as [v|x] eqn:Hv.
  - exists v. split; [reflexivity|].
    rewrite (fade_to_faded _ _ _ _ _ Hv) in H. by injection H.
  - unfold fade_to, num_leds in H. rewrite collect_getitem in H. simpl in H.
    unfold num_leds in Hv. rewrite Hv in H. discriminate.
Qed.

(** ** The engine invariant *)

Lemma init_wf pixels : wf (init pixels).
Proof.
  split; simpl; try discriminate; unfold num_leds; simpl;
    apply length_replicate.
Qed.

Lemma faded_wf now v duration_ms e :
  length v = num_leds e →
  (rgb_seq_active e = true → (rgb_seq_idx e < length (rgb_sequence e))%nat) →
  (rgb_seq_active e = true → Forall step_ok (rgb_sequence e)) →
  wf (faded now v duration_ms e).
Proof. intros Hv Hi Hs. split; simpl; auto. Qed.

Lemma fade_to_wf now target duration_ms e e1 :
  wf e → fade_to now target duration_ms e = Ok e1 → wf e1.
Proof.
  intros [] H. apply fade_to_inv in H as (v & Hv & ->).
  apply faded_wf; auto. by apply determine_target_length in Hv.
Qed.

Lemma stop_rgb_wf e : wf e → wf (stop_rgb e).
Proof.
  intros []. split; simpl; try discriminate;
    unfold num_leds; simpl; by rewrite length_replicate.
Qed.

Lemma play_matrix_wf now frames delay e : wf e → wf (play_matrix now frames delay e).
Proof. intros []. unfold play_matrix. simpl. destruct frames; split; simpl; auto. Qed.

Lemma stop_matrix_wf e : wf e → wf (stop_matrix e).
Proof. intros []. split; simpl; auto. Qed.

(** [play_rgb_sequence] on a non-empty sequence of good steps: the first
    step is handed to [fade_to], whatever the engine was doing. *)
Lemma play_rgb_sequence_ok now sequence loop e target duration :
  sequence !! 0%nat = Some (target, duration) →
  Forall step_ok sequence →
  ∃ v, determine_target (num_leds e) target = Ok v ∧
       play_rgb_sequence now sequence loop e =
         Ok (faded now v duration
               (set_rgb_seq_active true
                  (set_rgb_seq_idx 0
                     (set_rgb_seq_loop loop (set_rgb_sequence sequence e))))).
Proof.
  intros H0 Hall.
  assert (Hok : target_ok target).
  { apply (Forall_lookup_1 _ _ _ _ Hall H0). }
  destruct (determine_target_ok (num_leds e) target Hok) as [v Hv].
  exists v. split; [exact Hv|].
  unfold play_rgb_sequence. cbv zeta.
  change (getitem _ 0%nat) with (getitem sequence 0%nat).
  rewrite (getitem_Some _ _ _ H0). simpl.
  by apply fade_to_faded.
Qed.

(** ** One call of [update] *)

Section UpdateProps.
Context {FA : FloatArith}.

Lemma apply_target_ok e :
  length (rgb_target_colors e) = num_leds e →
  apply_target e = Ok (map as_pixel (rgb_target_colors e)).
Proof.
  intros Hlen. unfold apply_target. rewrite <- Hlen.
  apply for_each_np_fill; [|by rewrite Hlen].
  intros i b x Hx Hi. by rewrite (getitem_Some _ _ _ Hx).
Qed.

Lemma lerp_all_length progress e :
  wf e → length (lerp_all progress e) = num_leds e.
Proof.
  intros []. unfold lerp_all. rewrite length_zip_with. lia.
Qed.

Lemma apply_lerp_ok progress e :
  wf e → apply_lerp progress e = Ok (map as_pixel (lerp_all progress e)).
Proof.
  intros Hwf. pose proof (lerp_all_length progress e Hwf) as Hlen.
  unfold apply_lerp. rewrite <- Hlen.
  apply for_each_np_fill; [|by rewrite Hlen].
  intros i b x Hx Hi. unfold lerp_all in Hx.
  apply lookup_zip_with_Some in Hx as (s & t & -> & Hs & Ht).
  rewrite (getitem_Some _ _ _ Hs). simpl.
  by rewrite (getitem_Some _ _ _ Ht).
Qed.

Lemma rgb_logic_idle now now_fade e :
  rgb_animating e = false → rgb_logic now now_fade e = Ok (FallThrough, e).
Proof. intros H. unfold rgb_logic. by rewrite H. Qed.

(** The fade is over: [elapsed >= self.rgb_duration]. *)
Lemma rgb_logic_done now now_fade e :
  wf e → rgb_animating e = true →
  rgb_duration e <= ticks_diff now (rgb_start_time e) →
  rgb_logic now now_fade e =
    if rgb_seq_active e then
      match next_idx e with
      | None =>
          Ok (Return,
              set_rgb_animating false
                (set_rgb_seq_active false
                   (set_rgb_seq_idx (rgb_seq_idx e + 1)%nat (target_shown e))))
      | Some j =>
          '(target, duration) ← getitem (rgb_sequence e) j;
          e' ← fade_to now_fade target duration
                 (set_rgb_seq_idx j (target_shown e));
          Ok (FallThrough, e')
      end
    else Ok (FallThrough, set_rgb_animating false (target_shown e)).
Proof.
  intros Hwf Ha Hd. unfold rgb_logic. rewrite Ha.
  apply Z.leb_le in Hd. rewrite Hd.
  rewrite (apply_target_ok e (wf_target e Hwf)).
  unfold next_idx, target_shown. destruct e; simpl in *.
  destruct rgb_seq_active0; [|reflexivity].
  destruct (_ <=? _)%nat; [destruct rgb_seq_loop0|]; reflexivity.
Qed.

(** The fade is under way: [elapsed < self.rgb_duration] and
    [self.rgb_duration > 0]. *)
Lemma rgb_logic_lerp now now_fade e :
  wf e → rgb_animating e = true →
  ticks_diff now (rgb_start_time e) < rgb_duration e →
  0 < rgb_duration e →
  rgb_logic now now_fade e =
    Ok (FallThrough,
        np_write
          (set_np
             (map as_pixel
                (lerp_all (fdiv (of_int (ticks_diff now (rgb_start_time e)))
                                (of_int (rgb_duration e))) e)) e)).
Proof.
  intros Hwf Ha Hlt Hpos. unfold rgb_logic. rewrite Ha.
  apply Z.leb_gt in Hlt. rewrite Hlt.
  apply Z.ltb_lt in Hpos. rewrite Hpos.
  rewrite (apply_lerp_ok _ e Hwf). reflexivity.
Qed.

(** Neither: a duration that is not positive and not yet reached. *)
Lemma rgb_logic_wait now now_fade e :
  ticks_diff now (rgb_start_time e) < rgb_duration e →
  rgb_duration e <= 0 →
  rgb_logic now now_fade e = Ok (FallThrough, e).
Proof.
  intros Hlt Hneg. unfold rgb_logic.
  apply Z.leb_gt in Hlt. rewrite Hlt.
  assert ((0 <? rgb_duration e) = false) as -> by (apply Z.ltb_ge; lia).
  by destruct (rgb_animating e).
Qed.

(** The matrix block. *)
Lemma matrix_logic_off now e :
  matrix_animating e = false ∨ matrix_frames e = [] →
  matrix_logic now e = Ok e.
Proof.
  intros [H|H]; unfold matrix_logic; rewrite H; [reflexivity|].
  rewrite bool_decide_eq_true_2 by reflexivity. by rewrite andb_false_r.
Qed.

Lemma matrix_logic_hold now e :
  ticks_diff now (matrix_last_tick e) <= matrix_delay e →
  matrix_logic now e = Ok e.
Proof.
  intros H. unfold matrix_logic.
  assert ((matrix_delay e <? ticks_diff now (matrix_last_tick e)) = false) as ->
    by (apply Z.ltb_ge; lia).
  by destruct (_ && _).
Qed.

Lemma matrix_logic_advance now e :
  matrix_animating e = true → matrix_frames e ≠ [] →
  matrix_delay e < ticks_diff now (matrix_last_tick e) →
  ∃ frame,
    matrix_frames e !! ((matrix_idx e + 1) mod length (matrix_frames e))%nat
      = Some frame ∧
    matrix_logic now e =
      Ok (matrix_func frame
            (set_matrix_idx
               ((matrix_idx e + 1) mod length (matrix_frames e))%nat
               (set_matrix_last_tick now e))).
Proof.
  intros Ha Hne Hlt. unfold matrix_logic. rewrite Ha.
  rewrite bool_decide_eq_false_2 by exact Hne. simpl.
  apply Z.ltb_lt in Hlt. rewrite Hlt.
  destruct (lookup_lt_is_Some_2 (matrix_frames e)
              ((matrix_idx e + 1) mod length (matrix_frames e))%nat)
    as [frame Hf].
  { apply Nat.mod_upper_bound. destruct (matrix_frames e); [done|simpl; lia]. }
  exists frame. split; [exact Hf|].
  change (getitem _ _) with
    (getitem (matrix_frames e)
       ((matrix_idx e + 1) mod length (matrix_frames e))%nat).
  rewrite (getitem_Some _ _ _ Hf). reflexivity.
Qed.

End UpdateProps.

(** ** The interpolation arithmetic *)

Section FloatProps.
Context {FA : FloatArith}.

Lemma feq_refl x : feq x x.
Proof. split; apply fle_refl. Qed.

Lemma feq_sym x y : feq x y → feq y x.
Proof. intros [H1 H2]. by split. Qed.

Lemma feq_trans x y z : feq x y → feq y z → feq x z.
Proof. intros [H1 H2] [H3 H4]. split; eapply fle_trans; eauto. Qed.

Lemma trunc_feq x y : feq x y → trunc x = trunc y.
Proof.
  intros [H1 H2]. apply trunc_mono in H1, H2. lia.
Qed.

Lemma fadd_feq c x y : feq x y → feq (fadd c x) (fadd c y).
Proof. intros [H1 H2]. split; by apply fadd_mono. Qed.

(** Multiplying by a converted integer respects [feq], whatever its sign. *)
Lemma fmul_of_int_feq k x y :
  feq x y → feq (fmul (of_int k) x) (fmul (of_int k) y).
Proof.
  intros [H1 H2]. destruct (Z.le_ge_cases 0 k) as [Hk|Hk].
  - apply of_int_mono in Hk. split; by apply fmul_mono_pos.
  - apply of_int_mono in Hk. split; by apply fmul_mono_neg.
Qed.

Lemma lerp_channel_mono_up s t p q :
  s <= t → fle p q → lerp_channel s t p <= lerp_channel s t q.
Proof.
  intros Hst Hpq. unfold lerp_channel.
  apply trunc_mono, fadd_mono, fmul_mono_pos; [|exact Hpq].
  apply of_int_mono. lia.
Qed.

Lemma lerp_channel_mono_down s t p q :
  t <= s → fle p q → lerp_channel s t q <= lerp_channel s t p.
Proof.
  intros Hst Hpq. unfold lerp_channel.
  apply trunc_mono, fadd_mono, fmul_mono_neg; [|exact Hpq].
  apply of_int_mono. lia.
Qed.

(** At progress 0 the channel is the start value. *)
Lemma lerp_channel_zero s t p :
  exact s → feq p (of_int 0) → lerp_channel s t p = s.
Proof.
  intros Hs Hp. unfold lerp_channel.
  transitivity (trunc (of_int s)); [|by apply trunc_of_int]. apply trunc_feq.
  eapply feq_trans; [|apply fadd_zero].
  apply fadd_feq.
  eapply feq_trans; [apply fmul_of_int_feq, Hp|apply fmul_zero].
Qed.

(** At progress 1 the channel is the target value. *)
Lemma lerp_channel_one s t p :
  exact s → exact t → exact (t - s) → feq p (of_int 1) →
  lerp_channel s t p = t.
Proof.
  intros Hs Ht Hd Hp. unfold lerp_channel.
  transitivity (trunc (of_int t)); [|by apply trunc_of_int]. apply trunc_feq.
  eapply feq_trans.
  { apply fadd_feq. eapply feq_trans; [apply fmul_of_int_feq, Hp|apply fmul_one]. }
  pose proof (fadd_exact s (t - s) Hs Hd) as Hsum.
  replace (s + (t - s)) with t in Hsum by lia. by apply Hsum.
Qed.

(** [progress = elapsed / duration] lies in [0, 1] while the fade runs. *)
Lemma progress_bounds elapsed duration :
  0 <= elapsed <= duration → 0 < duration →
  fle (of_int 0) (fdiv (of_int elapsed) (of_int duration)) ∧
  fle (fdiv (of_int elapsed) (of_int duration)) (of_int 1).
Proof.
  intros [H0 H1] Hpos. split.
  - eapply fle_trans; [apply (fdiv_zero duration Hpos)|].
    apply fdiv_mono; [exact Hpos|]. by apply of_int_mono.
  - eapply fle_trans; [|apply (fdiv_same duration Hpos)].
    apply fdiv_mono; [exact Hpos|]. by apply of_int_mono.
Qed.

Lemma lerp_channel_between_up s t p :
  exact s → exact t → exact (t - s) → s <= t →
  fle (of_int 0) p → fle p (of_int 1) →
  s <= lerp_channel s t p <= t.
Proof.
  intros Hs Ht Hd Hst H0 H1. split.
  - pose proof (lerp_channel_zero s t (of_int 0) Hs (feq_refl _)) as E.
    pose proof (lerp_channel_mono_up s t _ _ Hst H0). lia.
  - pose proof (lerp_channel_one s t (of_int 1) Hs Ht Hd (feq_refl _)) as E.
    pose proof (lerp_channel_mono_up s t _ _ Hst H1). lia.
Qed.

Lemma lerp_channel_between_down s t p :
  exact s → exact t → exact (t - s) → t <= s →
  fle (of_int 0) p → fle p (of_int 1) →
  t <= lerp_channel s t p <= s.
Proof.
  intros Hs Ht Hd Hst H0 H1. split.
  - pose proof (lerp_channel_one s t (of_int 1) Hs Ht Hd (feq_refl _)) as E.
    pose proof (lerp_channel_mono_down s t _ _ Hst H1). lia.
  - pose proof (lerp_channel_zero s t (of_int 0) Hs (feq_refl _)) as E.
    pose proof (lerp_channel_mono_down s t _ _ Hst H0). lia.
Qed.

(** Between two channels in the range of the strip the interpolated
    channel is in that range. *)
Lemma lerp_channel_is_byte s t p :
  is_byte s → is_byte t → exact s → exact t → exact (t - s) →
  fle (of_int 0) p → fle p (of_int 1) →
  is_byte (lerp_channel s t p).
Proof.
  unfold is_byte. intros Hbs Hbt Hs Ht Hd H0 H1.
  destruct (Z.le_ge_cases s t) as [Hst|Hst].
  - pose proof (lerp_channel_between_up s t p Hs Ht Hd Hst H0 H1). lia.
  - pose proof (lerp_channel_between_down s t p Hs Ht Hd Hst H0 H1). lia.
Qed.

Lemma lerp_color_ok s t p :
  color_ok s → color_ok t → exact_fade s t →
  fle (of_int 0) p → fle p (of_int 1) →
  color_ok (lerp s t p).
Proof.
  destruct s as [[s0 s1] s2], t as [[t0 t1] t2].
  intros (Hs0 & Hs1 & Hs2) (Ht0 & Ht1 & Ht2)
    ((He0 & He1 & He2) & (Hf0 & Hf1 & Hf2) & Hd0 & Hd1 & Hd2) H0 H1.
  simpl in *. repeat split; by apply lerp_channel_is_byte.
Qed.

Lemma lerp_zero s t p : exact_color s → feq p (of_int 0) → lerp s t p = s.
Proof.
  destruct s as [[s0 s1] s2], t as [[t0 t1] t2]. intros (H0 & H1 & H2) Hp.
  simpl in *. by rewrite !lerp_channel_zero.
Qed.

Lemma lerp_all_zero p e :
  wf e → Forall exact_color (rgb_start_colors e) → feq p (of_int 0) →
  lerp_all p e = rgb_start_colors e.
Proof.
  intros [Hs Ht _ _] Hex Hp. unfold lerp_all.
  rewrite <- Ht in Hs. clear Ht.
  revert Hs Hex. generalize (rgb_target_colors e).
  induction (rgb_start_colors e) as [|s ss IH]; intros [|t ts] Hlen Hex;
    simpl in *; try done.
  inversion Hex; subst. f_equal; [by apply lerp_zero|].
  apply IH; [lia|done].
Qed.

End FloatProps.

(** ** Runs of [update] *)

Lemma matrix_touch_id e :
  e = matrix_touch (matrix_calls e) (matrix_idx e) (matrix_last_tick e) e.
Proof. by destruct e. Qed.

Lemma matrix_touch_wf calls idx last_tick e :
  wf e → wf (matrix_touch calls idx last_tick e).
Proof. intros []. split; simpl; auto. Qed.

Section RunProps.
Context {FA : FloatArith}.

(** Closes a goal [∃ calls idx last_tick, Ok e = Ok (matrix_touch ...)]. *)
Ltac untouched := eexists _, _, _; f_equal; apply matrix_touch_id.

(** The matrix block never raises and leaves the RGB side alone. *)
Lemma matrix_logic_total now e :
  ∃ calls idx last_tick,
    matrix_logic now e = Ok (matrix_touch calls idx last_tick e).
Proof.
  destruct (matrix_animating e) eqn:Ha.
  2: { rewrite matrix_logic_off by auto. untouched. }
  destruct (decide (matrix_frames e = [])) as [Hf|Hf].
  { rewrite matrix_logic_off by auto. untouched. }
  destruct (Z_lt_le_dec (matrix_delay e) (ticks_diff now (matrix_last_tick e)))
    as [Hlt|Hle].
  - destruct (matrix_logic_advance now e Ha Hf Hlt) as (frame & _ & ->).
    eexists _, _, _. unfold matrix_touch, matrix_func. by destruct e.
  - rewrite matrix_logic_hold by exact Hle. untouched.
Qed.

Lemma update_fallthrough now now_fade e e1 :
  rgb_logic now now_fade e = Ok (FallThrough, e1) →
  ∃ calls idx last_tick,
    update now now_fade e = Ok (matrix_touch calls idx last_tick e1).
Proof.
  intros H. unfold update. rewrite H. simpl. apply matrix_logic_total.
Qed.

Lemma update_return now now_fade e e1 :
  rgb_logic now now_fade e = Ok (Return, e1) → update now now_fade e = Ok e1.
Proof. intros H. unfold update. by rewrite H. Qed.

(** With no fade running, [update] leaves the strip alone. *)
Lemma update_idle now now_fade e :
  rgb_animating e = false →
  ∃ calls idx last_tick,
    update now now_fade e = Ok (matrix_touch calls idx last_tick e).
Proof.
  intros H. apply update_fallthrough. by apply rgb_logic_idle.
Qed.

Lemma run_ticks_idle ticks e :
  rgb_animating e = false →
  ∃ e', run_ticks ticks e = Ok (0%nat, e') ∧
        np e' = np e ∧ np_written e' = np_written e ∧
        rgb_animating e' = false ∧ rgb_seq_active e' = rgb_seq_active e.
Proof.
  revert e. induction ticks as [|[now now_fade] rest IH]; intros e Ha; simpl.
  - by exists e.
  - destruct (update_idle now now_fade e Ha) as (c & i & t & ->). simpl.
    destruct (IH (matrix_touch c i t e) Ha) as (e' & -> & H1 & H2 & H3 & H4).
    simpl. unfold fade_due. rewrite Ha. simpl. by exists e'.
Qed.

(** *** Sequences *)

Lemma playing_start N now sequence loop e target duration v :
  sequence !! 0%nat = Some (target, duration) →
  Forall step_ok sequence →
  num_leds e = N → determine_target N target = Ok v →
  playing N sequence loop 0
    (faded now v duration
       (set_rgb_seq_active true
          (set_rgb_seq_idx 0
             (set_rgb_seq_loop loop (set_rgb_sequence sequence e))))).
Proof.
  intros H0 Hall HN Hv. pose proof (determine_target_length _ _ _ Hv) as Hlen.
  split; simpl; try done.
  - split; simpl; try done; unfold num_leds in *; simpl; try congruence.
    intros _. by apply lookup_lt_Some in H0.
  - eauto.
Qed.

(** The state after a completed step when the cursor moves on to [j]. *)
Lemma playing_next N now_fade sequence loop e j target duration v calls idx tick :
  wf e → rgb_sequence e = sequence → rgb_seq_loop e = loop →
  rgb_seq_active e = true →
  sequence !! j = Some (target, duration) →
  num_leds e = N → determine_target N target = Ok v →
  playing N sequence loop j
    (matrix_touch calls idx tick
       (faded now_fade v duration (set_rgb_seq_idx j (target_shown e)))).
Proof.
  intros Hwf Hs Hl Ha Hj HN Hv.
  pose proof (determine_target_length _ _ _ Hv) as Hlen.
  pose proof (wf_steps e Hwf Ha) as Hsteps.
  pose proof (wf_target e Hwf) as Ht.
  split; simpl; try done.
  - split; simpl; unfold num_leds in *; simpl; rewrite ?length_map;
      try congruence.
    intros _. rewrite Hs. by apply lookup_lt_Some in Hj.
  - unfold num_leds in *. simpl. rewrite length_map. congruence.
  - eauto.
Qed.

Lemma playing_touch N sequence loop i e calls idx tick :
  playing N sequence loop i e →
  playing N sequence loop i (matrix_touch calls idx tick e).
Proof.
  intros [Hwf HN Hs Hl Ha Han Hi Hstep]. split; simpl; try done.
  by apply matrix_touch_wf.
Qed.

Lemma playing_lerp N sequence loop i e v calls idx tick :
  playing N sequence loop i e → length v = num_leds e →
  playing N sequence loop i (matrix_touch calls idx tick (np_write (set_np v e))).
Proof.
  intros [[] HN Hs Hl Ha Han Hi Hstep] Hv.
  unfold num_leds in *.
  split; simpl; try done.
  - split; simpl; unfold num_leds; simpl; auto; congruence.
  - unfold num_leds. simpl. congruence.
Qed.

Lemma num_leds_target_shown j e :
  wf e → num_leds (set_rgb_seq_idx j (target_shown e)) = num_leds e.
Proof.
  intros []. unfold num_leds in *. simpl. rewrite length_map. congruence.
Qed.

(** Starting step [j] after a completed step. *)
Lemma next_step_ok now_fade e j :
  wf e → rgb_seq_active e = true → (j < length (rgb_sequence e))%nat →
  ∃ e1,
    (getitem (rgb_sequence e) j ≫= λ '(target, duration),
       fade_to now_fade target duration (set_rgb_seq_idx j (target_shown e))
       ≫= λ e', Ok (FallThrough, e')) = Ok (FallThrough, e1) ∧
    np e1 = map as_pixel (rgb_target_colors e) ∧
    np_written e1 = np_written e ++ [map as_pixel (rgb_target_colors e)] ∧
    ∀ calls idx tick,
      playing (num_leds e) (rgb_sequence e) (rgb_seq_loop e) j
        (matrix_touch calls idx tick e1).
Proof.
  intros Hwf Ha Hj.
  pose proof (wf_steps e Hwf Ha) as Hsteps.
  destruct (lookup_lt_is_Some_2 (rgb_sequence e) j Hj) as [[tg d] Hstep].
  assert (Hok : target_ok tg) by apply (Forall_lookup_1 _ _ _ _ Hsteps Hstep).
  destruct (determine_target_ok (num_leds e) tg Hok) as [v Hv].
  rewrite (getitem_Some _ _ _ Hstep). simpl.
  rewrite (fade_to_faded now_fade tg d _ v)
    by (by rewrite num_leds_target_shown).
  simpl. eexists. split; [reflexivity|]. split; [reflexivity|].
  split; [reflexivity|].
  intros calls idx tick.
  by apply (playing_next _ now_fade _ _ e j tg d v).
Qed.

(** One [update] of a playing sequence: when the fade is over the cursor
    moves on, wraps, or the session ends; otherwise the step goes on. *)
Lemma update_playing N sequence loop i e now now_fade :
  playing N sequence loop i e →
  ∃ e', update now now_fade e = Ok e' ∧
    if fade_due now e then
      if decide (i + 1 < length sequence)%nat then
        playing N sequence loop (i + 1) e'
      else if loop then playing N sequence loop 0 e'
      else finished N sequence e'
    else playing N sequence loop i e'.
Proof.
  intros Hpl.
  destruct Hpl as [Hwf HN Hs Hl Ha Han Hi (tg & d & Hstep & Hd & Htg)] eqn:Hrec.
  clear Hrec.
  pose proof (lookup_lt_Some _ _ _ Hstep) as Hilt.
  unfold fade_due. rewrite Han. simpl.
  destruct (Z.leb_spec (rgb_duration e) (ticks_diff now (rgb_start_time e)))
    as [Hdue|Hnot].
  - pose proof (rgb_logic_done now now_fade e Hwf Han Hdue) as Hr.
    rewrite Ha in Hr. unfold next_idx in Hr. rewrite Hi in Hr.
    case_decide as Hlt.
    + rewrite Hs in Hr at 1. rewrite (proj2 (Nat.leb_gt _ _) Hlt) in Hr.
      destruct (next_step_ok now_fade e (i + 1) Hwf Ha)
        as (e1 & He1 & _ & _ & Hp); [by rewrite Hs|].
      rewrite He1 in Hr.
      destruct (update_fallthrough _ _ _ _ Hr) as (c & ix & t & Hu).
      eexists. split; [exact Hu|]. rewrite <- HN, <- Hs, <- Hl. apply Hp.
    + rewrite Hs in Hr at 1. rewrite (proj2 (Nat.leb_le _ _)) in Hr by lia.
      rewrite Hl in Hr. destruct loop.
      * destruct (next_step_ok now_fade e 0 Hwf Ha)
          as (e1 & He1 & _ & _ & Hp); [rewrite Hs; lia|].
        rewrite He1 in Hr.
        destruct (update_fallthrough _ _ _ _ Hr) as (c & ix & t & Hu).
        eexists. split; [exact Hu|]. rewrite <- HN, <- Hs, <- Hl. apply Hp.
      * eexists. split; [exact (update_return _ _ _ _ Hr)|].
        split; simpl; try done.
        { unfold num_leds in *. simpl.
          by rewrite length_map, (wf_target e Hwf). }
        exists tg, d, (rgb_target_colors e). split; [|split; [|split]].
        -- rewrite last_lookup. rewrite <- Hstep. f_equal. lia.
        -- exact Htg.
        -- reflexivity.
        -- apply last_snoc.
  - destruct (Z_lt_le_dec 0 (rgb_duration e)) as [Hpos|Hneg].
    + pose proof (rgb_logic_lerp now now_fade e Hwf Han Hnot Hpos) as Hr.
      destruct (update_fallthrough _ _ _ _ Hr) as (c & ix & t & Hu).
      eexists. split; [exact Hu|].
      apply playing_lerp; [exact Hpl|].
      rewrite length_map. by apply lerp_all_length.
    + pose proof (rgb_logic_wait now now_fade e Hnot Hneg) as Hr.
      destruct (update_fallthrough _ _ _ _ Hr) as (c & ix & t & Hu).
      eexists. split; [exact Hu|]. by apply playing_touch.
Qed.



(** A looping sequence: after [n] completed steps the cursor is at
    [(i + n) mod len], and the session is still playing. *)
Lemma run_ticks_loop N sequence ticks :
  ∀ i e, playing N sequence true i e →
  ∃ n e', run_ticks ticks e = Ok (n, e') ∧
          playing N sequence true ((i + n) mod length sequence) e'.
Proof.
  induction ticks as [|[now now_fade] rest IH]; intros i e Hpl.
  - exists 0%nat, e. split; [reflexivity|].
    destruct (pl_step _ _ _ _ _ Hpl) as (tg & d & Hstep & _).
    apply lookup_lt_Some in Hstep.
    by rewrite Nat.add_0_r, Nat.mod_small.
  - destruct (pl_step _ _ _ _ _ Hpl) as (tg & d & Hstep & _).
    apply lookup_lt_Some in Hstep.
    destruct (update_playing _ _ _ _ _ now now_fade Hpl) as (e1 & Hu & Hnext).
    simpl. rewrite Hu. simpl.
    destruct (fade_due now e).
    + case_decide as Hlt.
      * destruct (IH _ _ Hnext) as (n & e' & -> & Hp). simpl.
        exists (S n), e'. split; [reflexivity|].
        by replace (i + S n)%nat with (i + 1 + n)%nat by lia.
      * destruct (IH _ _ Hnext) as (n & e' & -> & Hp). simpl.
        exists (S n), e'. split; [reflexivity|].
        replace (i + S n)%nat with (n + 1 * length sequence)%nat by lia.
        by rewrite Nat.Div0.mod_add.
    + destruct (IH _ _ Hnext) as (n & e' & -> & Hp). simpl.
      by exists n, e'.
Qed.

End RunProps.

(** ** The fade session across calls of [update] *)

Lemma session_wf e e' : session e' = session e → wf e → wf e'.
Proof.
  unfold session. intros [= H1 H2 H3 H4 H5 H6 H7 H8 H9 H10] [].
  split; rewrite ?H1, ?H3, ?H4, ?H5, ?H9, ?H10; assumption.
Qed.

Section FadeProps.
Context {FA : FloatArith}.

(** A call that finds the fade over shows the stored target. *)
Lemma update_done now now_fade e :
  wf e → rgb_animating e = true →
  rgb_duration e <= ticks_diff now (rgb_start_time e) →
  ∃ e2, update now now_fade e = Ok e2 ∧
        np e2 = map as_pixel (rgb_target_colors e) ∧
        np_written e2 = np_written e ++ [map as_pixel (rgb_target_colors e)] ∧
        wf e2.
Proof.
  intros Hwf Han Hdue.
  pose proof (rgb_logic_done now now_fade e Hwf Han Hdue) as Hr.
  destruct (rgb_seq_active e) eqn:Ha.
  - pose proof (wf_idx e Hwf Ha) as Hidx.
    destruct (next_idx e) as [j|] eqn:Hj.
    + assert (Hlt : (j < length (rgb_sequence e))%nat).
      { unfold next_idx in Hj.
        destruct (Nat.leb_spec (length (rgb_sequence e)) (rgb_seq_idx e + 1));
          [destruct (rgb_seq_loop e)|]; simplify_eq; lia. }
      destruct (next_step_ok now_fade e j Hwf Ha Hlt)
        as (e1 & He1 & Hnp & Hnw & Hp).
      rewrite He1 in Hr.
      destruct (update_fallthrough _ _ _ _ Hr) as (c & ix & t & Hu).
      eexists. split; [exact Hu|]. split; [exact Hnp|]. split; [exact Hnw|].
      apply (pl_wf _ _ _ _ _ (Hp c ix t)).
    + eexists. split; [exact (update_return _ _ _ _ Hr)|].
      split; [reflexivity|]. split; [reflexivity|].
      destruct Hwf. split; simpl; try done; unfold num_leds in *; simpl;
        rewrite length_map; congruence.
  - destruct (update_fallthrough _ _ _ _ Hr) as (c & ix & t & Hu).
    eexists. split; [exact Hu|]. split; [reflexivity|]. split; [reflexivity|].
    destruct Hwf.
    split; simpl; try done; unfold num_leds in *; simpl;
      rewrite ?length_map; try congruence.
    all: by rewrite Ha.
Qed.

(** A call that finds the fade under way shows the interpolated vector. *)
Lemma update_lerp now now_fade e :
  wf e → rgb_animating e = true →
  ticks_diff now (rgb_start_time e) < rgb_duration e →
  0 < rgb_duration e →
  let progress := fdiv (of_int (ticks_diff now (rgb_start_time e)))
                       (of_int (rgb_duration e)) in
  ∃ e2, update now now_fade e = Ok e2 ∧
        np e2 = map as_pixel (lerp_all progress e) ∧
        np_written e2 = np_written e ++ [map as_pixel (lerp_all progress e)] ∧
        session e2 = session e.
Proof.
  intros Hwf Han Hlt Hpos progress.
  pose proof (rgb_logic_lerp now now_fade e Hwf Han Hlt Hpos) as Hr.
  destruct (update_fallthrough _ _ _ _ Hr) as (c & ix & t & Hu).
  eexists. split; [exact Hu|]. repeat split.
  unfold session, num_leds. simpl.
  by rewrite length_map, (lerp_all_length _ e Hwf).
Qed.

(** A call that does not find the fade over leaves the session as it is. *)
Lemma update_not_due now now_fade e :
  wf e → fade_due now e = false →
  ∃ e2, update now now_fade e = Ok e2 ∧ session e2 = session e.
Proof.
  intros Hwf Hnd. unfold fade_due in Hnd.
  destruct (rgb_animating e) eqn:Han; simpl in Hnd.
  - apply Z.leb_gt in Hnd.
    destruct (Z_lt_le_dec 0 (rgb_duration e)) as [Hpos|Hneg].
    + destruct (update_lerp now now_fade e Hwf Han Hnd Hpos)
        as (e2 & Hu & _ & _ & Hs). eauto.
    + pose proof (rgb_logic_wait now now_fade e Hnd Hneg) as Hr.
      destruct (update_fallthrough _ _ _ _ Hr) as (c & ix & t & Hu).
      eexists. split; [exact Hu|]. reflexivity.
  - destruct (update_idle now now_fade e Han) as (c & ix & t & Hu).
    eexists. split; [exact Hu|]. reflexivity.
Qed.

(** Calls none of which found the fade over leave the session as it is. *)
Lemma run_ticks_zero ticks :
  ∀ e e', wf e → run_ticks ticks e = Ok (0%nat, e') → session e' = session e.
Proof.
  induction ticks as [|[now now_fade] rest IH]; intros e e' Hwf Hrun.
  - simpl in Hrun. by simplify_eq.
  - simpl in Hrun. destruct (fade_due now e) eqn:Hdue.
    + destruct (update now now_fade e) as [e1|]; [|done]. simpl in Hrun.
      destruct (run_ticks rest e1) as [[n e'']|]; simpl in Hrun; done.
    + destruct (update_not_due now now_fade e Hwf Hdue) as (e1 & Hu & Hs).
      rewrite Hu in Hrun. simpl in Hrun.
      destruct (run_ticks rest e1) as [[n e'']|] eqn:Hrest; [|done].
      simpl in Hrun. injection Hrun as Hn He. subst n e''.
      transitivity (session e1); [|exact Hs].
      apply IH; [|exact Hrest]. by apply (session_wf e).
Qed.

(** On a well-formed engine [update] does not raise, and the engine stays
    well formed. *)
Lemma update_total now now_fade e :
  wf e → ∃ e2, update now now_fade e = Ok e2 ∧ wf e2.
Proof.
  intros Hwf. destruct (fade_due now e) eqn:Hdue.
  - unfold fade_due in Hdue. apply andb_prop in Hdue as [Han Hd].
    apply Z.leb_le in Hd.
    destruct (update_done now now_fade e Hwf Han Hd) as (e2 & Hu & _ & _ & Hwf2).
    eauto.
  - destruct (update_not_due now now_fade e Hwf Hdue) as (e2 & Hu & Hs).
    exists e2. split; [exact Hu|]. by apply (session_wf e).
Qed.

Lemma play_rgb_sequence_wf now sequence loop e e1 :
  Forall step_ok sequence →
  play_rgb_sequence now sequence loop e = Ok e1 → wf e1.
Proof.
  intros Hall Hplay.
  destruct sequence as [|[tg d] rest] eqn:Hseq; [discriminate|].
  rewrite <- Hseq in *.
  assert (H0 : sequence !! 0%nat = Some (tg, d)) by by rewrite Hseq.
  destruct (play_rgb_sequence_ok now sequence loop e tg d H0 Hall)
    as (v & Hv & Hok).
  rewrite Hok in Hplay. injection Hplay as <-.
  apply (pl_wf (num_leds e) sequence loop 0).
  by apply (playing_start _ now sequence loop e tg d v).
Qed.

End FadeProps.

(** * The claims *)

Section Claims.
Context {FA : FloatArith}.

(** C1, amended.  A fade started by [fade_to] with a duration [D >= 0]:
    [fade_to] captures the strip as start vector and stores as target the
    vector the target stands for; then, after any calls of [update] that
    did not find the fade over, a call whose [ticks_diff(now, start_time)]
    is at least [D] leaves on the strip, and writes out, the stored target
    vector with every channel reduced to its low byte, which is exactly
    the stored target vector when its channels are in 0..255.  With
    [D = 0] the very first call does so, however late it comes within half
    a period of the counter.  With [D > 0] a call at elapsed time 0 shows
    the captured start vector (its channels being integers the arithmetic
    represents exactly, and bytes, as what the strip holds is). *)
Theorem fade_endpoints e0 now0 target D e1 :
  0 <= D → wf e0 → fade_to now0 target D e0 = Ok e1 →
  (rgb_animating e1 = true ∧ rgb_start_time e1 = now0 ∧
   rgb_duration e1 = D ∧ rgb_start_colors e1 = np e0 ∧
   determine_target (num_leds e0) target = Ok (rgb_target_colors e1) ∧
   stands_for (num_leds e0) target (rgb_target_colors e1)) ∧
  (∀ ticks e now now_fade,
     run_ticks ticks e1 = Ok (0%nat, e) →
     D <= ticks_diff now now0 →
     ∃ e2, update now now_fade e = Ok e2 ∧
           np e2 = map as_pixel (rgb_target_colors e1) ∧
           (Forall color_ok (rgb_target_colors e1) →
            np e2 = rgb_target_colors e1) ∧
           np_written e2 = np_written e ++ [np e2]) ∧
  (D = 0 →
   ∀ elapsed now_fade, 0 <= elapsed < TICKS_PERIOD / 2 →
     ∃ e2, update (ticks_after now0 elapsed) now_fade e1 = Ok e2 ∧
           np e2 = map as_pixel (rgb_target_colors e1) ∧
           (Forall color_ok (rgb_target_colors e1) →
            np e2 = rgb_target_colors e1) ∧
           np_written e2 = np_written e1 ++ [np e2]) ∧
  (0 < D → Forall exact_color (np e0) →
   ∀ ticks e now now_fade,
     run_ticks ticks e1 = Ok (0%nat, e) →
     ticks_diff now now0 = 0 →
     ∃ e2, update now now_fade e = Ok e2 ∧
           np e2 = map as_pixel (np e0) ∧
           (Forall color_ok (np e0) → np e2 = np e0) ∧
           np_written e2 = np_written e ++ [np e2]).
Proof.
  intros HD Hwf0 Hfade.
  pose proof (fade_to_wf _ _ _ _ _ Hwf0 Hfade) as Hwf1.
  destruct (fade_to_inv _ _ _ _ _ Hfade) as (v & Hv & ->).
  assert (Hlate : ∀ ticks e now now_fade,
     run_ticks ticks (faded now0 v D e0) = Ok (0%nat, e) →
     D <= ticks_diff now now0 →
     ∃ e2, update now now_fade e = Ok e2 ∧ np e2 = map as_pixel v ∧
           (Forall color_ok v → np e2 = v) ∧
           np_written e2 = np_written e ++ [np e2]).
  { intros ticks e now now_fade Hrun Hdue.
    pose proof (run_ticks_zero ticks _ _ Hwf1 Hrun) as Hs.
    pose proof (session_wf _ _ Hs Hwf1) as Hwf.
    unfold session in Hs. simpl in Hs.
    injection Hs as _ Han _ _ _ _ Hst Hdur _ Htg.
    rewrite <- Htg.
    destruct (update_done now now_fade e Hwf Han) as (e2 & Hu & Hnp & Hnw & _);
      [by rewrite Hst, Hdur|].
    exists e2. split; [exact Hu|]. split; [exact Hnp|].
    split; [|by rewrite Hnw, Hnp].
    intros Hok. by rewrite Hnp, as_pixels_small. }
  split.
  { repeat split; try done. by apply determine_target_stands_for. }
  split; [exact Hlate|]. split.
  - intros -> elapsed now_fade Hel.
    apply (Hlate [] _ _ now_fade eq_refl).
    rewrite ticks_diff_after; lia.
  - intros Hpos Hex ticks e now now_fade Hrun H0.
    pose proof (run_ticks_zero ticks _ _ Hwf1 Hrun) as Hs.
    pose proof (session_wf _ _ Hs Hwf1) as Hwf.
    unfold session in Hs. simpl in Hs.
    injection Hs as _ Han _ _ _ _ Hst Hdur Hsc Htg.
    destruct (update_lerp now now_fade e Hwf Han) as (e2 & Hu & Hnp & Hnw & _).
    { rewrite Hst, Hdur. lia. }
    { by rewrite Hdur. }
    exists e2. split; [exact Hu|].
    rewrite Hst, Hdur, H0 in Hnp, Hnw.
    assert (E : lerp_all (fdiv (of_int 0) (of_int D)) e = np e0).
    { rewrite <- Hsc. apply lerp_all_zero;
        [exact Hwf|by rewrite Hsc|by apply fdiv_zero]. }
    rewrite E in Hnp, Hnw. split; [exact Hnp|].
    split; [|by rewrite Hnw, Hnp].
    intros Hok. by rewrite Hnp, as_pixels_small.
Qed.


(** C5, amended.  A non-empty sequence no step of which has the empty list
    as target, started with [play_rgb_sequence(seq, loop=True)], stays
    active whatever calls of [update] follow: after [n] completed steps
    the session is active, a fade is running, and the cursor is at
    [n mod len(seq)] with that step loaded; so after [k * len(seq)]
    completed steps, for every [k >= 1], the cursor is back on step 0 and
    step 0 is the one being played. *)
Theorem sequence_loop_stays_active sequence e0 now0 :
  sequence ≠ [] → Forall step_ok sequence →
  ∃ e1, play_rgb_sequence now0 sequence true e0 = Ok e1 ∧
    ∀ ticks, ∃ n e, run_ticks ticks e1 = Ok (n, e) ∧
      rgb_seq_active e = true ∧ rgb_animating e = true ∧
      rgb_seq_idx e = (n mod length sequence)%nat ∧
      (∃ target duration,
         sequence !! rgb_seq_idx e = Some (target, duration) ∧
         rgb_duration e = duration ∧
         stands_for (num_leds e0) target (rgb_target_colors e)) ∧
      (∀ k, (1 <= k)%nat → n = (k * length sequence)%nat →
         rgb_seq_idx e = 0%nat ∧
         ∃ target duration,
           sequence !! 0%nat = Some (target, duration) ∧
           rgb_duration e = duration ∧
           stands_for (num_leds e0) target (rgb_target_colors e)).
Proof.
  intros Hne Hall.
  destruct sequence as [|[tg0 d0] rest] eqn:Hseq; [done|]. rewrite <- Hseq in *.
  assert (H0 : sequence !! 0%nat = Some (tg0, d0)) by by rewrite Hseq.
  destruct (play_rgb_sequence_ok now0 sequence true e0 tg0 d0 H0 Hall)
    as (v & Hv & Hplay).
  eexists. split; [exact Hplay|]. intros ticks.
  pose proof (playing_start (num_leds e0) now0 sequence true e0 tg0 d0 v
                H0 Hall eq_refl Hv) as Hpl.
  destruct (run_ticks_loop _ sequence ticks _ _ Hpl) as (n & e & Hrun & Hp).
  exists n, e. split; [exact Hrun|]. simpl in Hp.
  destruct Hp as [_ _ _ _ Ha Han Hi (tg & d & Hstep & Hd & Htg)].
  apply determine_target_stands_for in Htg.
  rewrite <- Hi in Hstep.
  split; [exact Ha|]. split; [exact Han|]. split; [exact Hi|].
  split; [by exists tg, d|].
  intros k Hk ->. rewrite Nat.Div0.mod_mul in Hi. rewrite Hi in Hstep.
  split; [exact Hi|]. by exists tg, d.
Qed.

(** C8.  While a fade with a positive duration is under way ([elapsed <
    duration]), [update] computes for every channel of every LED
    [int(start + (target - start) * progress)] with [progress = elapsed /
    duration], stores the tuple on the strip and writes the whole strip
    out; [int] moves its argument toward zero.  As a function of
    [progress] the channel value is non-decreasing when [target >= start]
    and non-increasing when [target <= start]; for [progress] in [0, 1],
    where [elapsed / duration] lies from elapsed time 0 on, it lies between
    start and target (start, target and their difference being integers
    the arithmetic represents exactly).  The strip keeps the low byte of
    the value, which is the value itself when start and target are in
    0..255. *)
Theorem interpolation_monotone e now now_fade :
  wf e → rgb_animating e = true →
  ticks_diff now (rgb_start_time e) < rgb_duration e →
  0 < rgb_duration e →
  let elapsed := ticks_diff now (rgb_start_time e) in
  let progress := fdiv (of_int elapsed) (of_int (rgb_duration e)) in
  (∃ e2 computed,
     update now now_fade e = Ok e2 ∧
     np e2 = map as_pixel computed ∧
     np_written e2 = np_written e ++ [np e2] ∧
     length computed = num_leds e ∧
     (∀ i s t, rgb_start_colors e !! i = Some s →
               rgb_target_colors e !! i = Some t →
               computed !! i =
                 Some (trunc (fadd (of_int s.1.1)
                                (fmul (of_int (t.1.1 - s.1.1)) progress)),
                       trunc (fadd (of_int s.1.2)
                                (fmul (of_int (t.1.2 - s.1.2)) progress)),
                       trunc (fadd (of_int s.2)
                                (fmul (of_int (t.2 - s.2)) progress)))) ∧
     (∀ i s t, rgb_start_colors e !! i = Some s →
               rgb_target_colors e !! i = Some t →
               color_ok s → color_ok t → exact_fade s t → 0 <= elapsed →
               np e2 !! i = computed !! i)) ∧
  (∀ x, (fle (of_int 0) x → fle (of_int (trunc x)) x) ∧
        (fle x (of_int 0) → fle x (of_int (trunc x)))) ∧
  (∀ s t p q, fle p q →
     (s <= t → lerp_channel s t p <= lerp_channel s t q) ∧
     (t <= s → lerp_channel s t q <= lerp_channel s t p)) ∧
  (∀ s t p, exact s → exact t → exact (t - s) →
     fle (of_int 0) p → fle p (of_int 1) →
     Z.min s t <= lerp_channel s t p <= Z.max s t) ∧
  (0 <= elapsed → fle (of_int 0) progress ∧ fle progress (of_int 1)).
Proof.
  intros Hwf Han Hlt Hpos elapsed progress.
  assert (Hbounds : 0 <= elapsed →
                    fle (of_int 0) progress ∧ fle progress (of_int 1)).
  { intros H0. apply progress_bounds; [|exact Hpos]. unfold elapsed in *. lia. }
  split; [|split; [|split; [|split]]].
  - destruct (update_lerp now now_fade e Hwf Han Hlt Hpos)
      as (e2 & Hu & Hnp & Hnw & _).
    fold elapsed in Hnp, Hnw. fold progress in Hnp, Hnw.
    assert (Hcomp : ∀ i s t, rgb_start_colors e !! i = Some s →
                             rgb_target_colors e !! i = Some t →
                             lerp_all progress e !! i = Some (lerp s t progress)).
    { intros i s t Hs Ht. unfold lerp_all.
      rewrite lookup_zip_with, Hs. simpl. by rewrite Ht. }
    exists e2, (lerp_all progress e). split; [exact Hu|].
    split; [exact Hnp|]. split; [by rewrite Hnw, Hnp|].
    split; [by apply lerp_all_length|]. split.
    + intros i [[s0 s1] s2] [[t0 t1] t2] Hs Ht.
      by rewrite (Hcomp _ _ _ Hs Ht).
    + intros i s t Hs Ht Hos Hot Hex H0.
      destruct (Hbounds H0) as [Hp0 Hp1].
      rewrite Hnp, list_lookup_fmap, (Hcomp _ _ _ Hs Ht). simpl.
      f_equal. apply as_pixel_small. by apply lerp_color_ok.
  - intros x. split; intros Hx.
    + by apply trunc_toward_zero_pos.
    + by apply trunc_toward_zero_neg.
  - intros s t p q Hpq. split; intros Hst.
    + by apply lerp_channel_mono_up.
    + by apply lerp_channel_mono_down.
  - intros s t p Hs Ht Hd H0 H1.
    destruct (Z.le_ge_cases s t) as [Hst|Hst].
    + pose proof (lerp_channel_between_up s t p Hs Ht Hd Hst H0 H1). lia.
    + pose proof (lerp_channel_between_down s t p Hs Ht Hd Hst H0 H1). lia.
  - exact Hbounds.
Qed.

End Claims.

(** C1 as stated fails for a target outside the range of the strip:
    [fade_to((300, 0, -1), 0)] stores the target vector with the tuples
    [(300, 0, -1)], and the first call of [update] leaves the strip at
    [(44, 0, 255)] on every LED, the low bytes, not at the stored target
    vector. *)
Lemma fade_out_of_range_target :
  ∃ e1 e2,
    fade_to 0 (TColor (300, 0, -1)) 0 (init leds) = Ok e1 ∧
    rgb_target_colors e1 = replicate 8 (300, 0, -1) ∧
    update (FO := exact_ops) 0 0 e1 = Ok e2 ∧
    np e2 = replicate 8 (44, 0, 255) ∧
    last (np_written e2) = Some (replicate 8 (44, 0, 255)) ∧
    np e2 ≠ rgb_target_colors e1.
Proof.
  eexists _, _. split; [vm_compute; reflexivity|]. split; [reflexivity|].
  split; [vm_compute; reflexivity|]. split; [reflexivity|].
  split; [reflexivity|]. discriminate.
Qed.


(** C5 as stated fails for a sequence whose second step has the empty list
    as target: it is non-empty and is accepted by
    [play_rgb_sequence(seq, loop=True)], and the call of [update] that
    finds the first fade over raises [IndexError], so that no run of
    [update] calls through it returns: the second step is never
    completed. *)
Lemma sequence_loop_as_stated_fails :
  ∃ e1,
    play_rgb_sequence 0 [(TColor (1, 0, 0), 10); (TList [], 10)] true
      (init leds) = Ok e1 ∧
    update (FO := exact_ops) 10 10 e1 = Raise IndexError ∧
    ∀ ticks, run_ticks (FO := exact_ops) ((10, 10) :: ticks) e1
             = Raise IndexError.
Proof.
  eexists. split; [vm_compute; reflexivity|].
  split; [vm_compute; reflexivity|].
  intros ticks. cbn [run_ticks].
  match goal with
  | |- context [update ?a ?b ?x] =>
      assert (update (FO := exact_ops) a b x = Raise IndexError) as ->
        by (vm_compute; reflexivity)
  end.
  reflexivity.
Qed.

(** C9 (the code departs from it).  The matrix is cycling [face1, face2]
    every 200 ms since tick 0 and a one-step sequence played once (100 ms)
    was started at tick 0.  The call of [update] at tick 250 finds the fade
    over, ends the sequence session and leaves through the [return] of the
    RGB block: the frame that is due since tick 200 is not rendered and the
    frame cursor and [matrix_last_tick] stay as they were, although the
    matrix block on that same state renders [face2]. *)
Theorem update_return_skips_matrix {FO : FloatOps} :
  ∃ e1 e2,
    play_rgb_sequence 0 [(TColor C_RED, 100)] false
      (play_matrix 0 matrix_anim_talk 200 (init leds)) = Ok e1 ∧
    matrix_animating e1 = true ∧
    matrix_delay e1 < ticks_diff 250 (matrix_last_tick e1) ∧
    update 250 250 e1 = Ok e2 ∧
    rgb_seq_active e2 = false ∧ rgb_animating e2 = false ∧
    matrix_calls e2 = matrix_calls e1 ∧
    matrix_idx e2 = matrix_idx e1 ∧
    matrix_last_tick e2 = matrix_last_tick e1 ∧
    ∃ e3, matrix_logic 250 e2 = Ok e3 ∧
          matrix_calls e3 = matrix_calls e1 ++ [face2].
Proof.
  eexists _, _. split; [vm_compute; reflexivity|].
  split; [reflexivity|]. split; [vm_compute; reflexivity|].
  split; [vm_compute; reflexivity|].
  repeat (split; [reflexivity|]).
  eexists. split; [vm_compute; reflexivity|reflexivity].
Qed.

(** ** The frame cycler *)

(** C7 as stated, at frames [face1, face2] with delay 200 ms started at
    tick 0: the calls of [update] at ticks 0, 210, 410 and 610 do not make
    the renders [face1, face2, face1, face2].  The call at 410 renders
    nothing, since 410 - 210 = 200 is not above the delay; with the render
    of [play_matrix] the matrix sink receives [face1, face2, face1]. *)
Lemma frame_cycler_example_fails :
  ∃ e, run_ticks (FO := exact_ops)
         [(0, 0); (210, 210); (410, 410); (610, 610)]
         (play_matrix 0 [face1; face2] 200 (init leds)) = Ok (0%nat, e) ∧
       matrix_calls e = [face1; face2; face1] ∧
       matrix_calls e ≠ [face1; face2; face1; face2].
Proof.
  eexists. split; [vm_compute; reflexivity|]. split; [reflexivity|]. discriminate.
Qed.

(** C7, amended.  [play_matrix(frames, delay)] stores frames and delay,
    resets the cursor, takes [now] as last tick and renders frame 0 at
    once.  The matrix block of [update] then, when
    [ticks_diff(now, matrix_last_tick) > matrix_delay], takes [now] as last
    tick, advances the cursor modulo the number of frames and renders that
    frame, and otherwise does nothing.  With frames [A, B] and delay 200 ms
    started at tick 0, the ticks 0 and 210 render [A] (by [play_matrix])
    and [B], the tick 410 renders nothing, and the tick 610 renders [A]. *)
Theorem frame_cycler :
  (∀ now frames delay e,
     let e1 := play_matrix now frames delay e in
     matrix_animating e1 = true ∧ matrix_frames e1 = frames ∧
     matrix_delay e1 = delay ∧ matrix_idx e1 = 0%nat ∧
     matrix_last_tick e1 = now ∧
     matrix_calls e1 = matrix_calls e ++ take 1 frames) ∧
  (∀ now e,
     matrix_animating e = true → matrix_frames e ≠ [] →
     (matrix_delay e < ticks_diff now (matrix_last_tick e) →
      ∃ e' frame,
        matrix_logic now e = Ok e' ∧
        matrix_idx e' = ((matrix_idx e + 1) mod length (matrix_frames e))%nat ∧
        matrix_frames e !! matrix_idx e' = Some frame ∧
        matrix_calls e' = matrix_calls e ++ [frame] ∧
        matrix_last_tick e' = now ∧
        matrix_animating e' = true ∧ matrix_frames e' = matrix_frames e ∧
        matrix_delay e' = matrix_delay e) ∧
     (ticks_diff now (matrix_last_tick e) <= matrix_delay e →
      matrix_logic now e = Ok e)) ∧
  (∀ (A B : Frame) e,
     let e0 := play_matrix 0 [A; B] 200 e in
     ∃ e1 e2 e3,
       matrix_calls e0 = matrix_calls e ++ [A] ∧
       matrix_ticks [0; 210] e0 = Ok e1 ∧
       matrix_calls e1 = matrix_calls e ++ [A; B] ∧
       matrix_ticks [410] e1 = Ok e2 ∧
       matrix_calls e2 = matrix_calls e ++ [A; B] ∧
       matrix_ticks [610] e2 = Ok e3 ∧
       matrix_calls e3 = matrix_calls e ++ [A; B; A]).
Proof.
  split; [|split].
  - intros now frames delay e e1. subst e1. unfold play_matrix. simpl.
    destruct frames; simpl; repeat split; by rewrite ?app_nil_r.
  - intros now e Ha Hne. split.
    + intros Hlt.
      destruct (matrix_logic_advance now e Ha Hne Hlt) as (frame & Hf & Hm).
      eexists _, frame. split; [exact Hm|]. by repeat split.
    + apply matrix_logic_hold.
  - intros A B e e0. subst e0.
    exists (cycling [A; B] 200 1 210 ((matrix_calls e ++ [A]) ++ [B]) e),
           (cycling [A; B] 200 1 210 ((matrix_calls e ++ [A]) ++ [B]) e),
           (cycling [A; B] 200 0 610
              (((matrix_calls e ++ [A]) ++ [B]) ++ [A]) e).
    split; [reflexivity|].
    split; [vm_compute; reflexivity|]. split; [simpl; by rewrite <- app_assoc|].
    split; [vm_compute; reflexivity|]. split; [simpl; by rewrite <- app_assoc|].
    split; [vm_compute; reflexivity|]. simpl. by rewrite <- !app_assoc.
Qed.

(** ** The auto-stop deadline *)

Lemma ticks_add_ok t delta :
  - (TICKS_PERIOD / 2) < delta < TICKS_PERIOD / 2 →
  ticks_add t delta = Ok ((t + delta) mod TICKS_PERIOD).
Proof.
  intros [H1 H2]. unfold ticks_add.
  apply Z.ltb_lt in H1, H2. by rewrite H1, H2.
Qed.

Lemma ticks_add_overflow t delta :
  TICKS_PERIOD / 2 <= delta → ticks_add t delta = Raise OverflowError.
Proof.
  intros H. unfold ticks_add.
  assert ((delta <? TICKS_PERIOD / 2) = false) as -> by (apply Z.ltb_ge; lia).
  by rewrite andb_false_r.
Qed.

(** Below half the period [drive] returns, after its eight [duty_u16]
    calls. *)
Lemma drive_returns now fl fr rl rr duration r :
  duration < TICKS_PERIOD / 2 →
  drive now fl fr rl rr duration r =
    Ok (driven fl fr rl rr
          (if 0 <? duration then (now + duration) mod TICKS_PERIOD else 0) r).
Proof.
  intros Hd. unfold drive. destruct (Z.ltb_spec 0 duration) as [Hpos|Hneg].
  - rewrite ticks_add_ok; [reflexivity|].
    assert (0 < TICKS_PERIOD / 2) by reflexivity. lia.
  - reflexivity.
Qed.

Lemma drive_overflow now fl fr rl rr duration r :
  TICKS_PERIOD / 2 <= duration →
  drive now fl fr rl rr duration r = Raise OverflowError.
Proof.
  intros Hd. unfold drive.
  assert (0 < TICKS_PERIOD / 2) by reflexivity.
  assert ((0 <? duration) = true) as -> by (apply Z.ltb_lt; lia).
  by rewrite ticks_add_overflow.
Qed.

(** [stop()] is [drive(0, 0, 0, 0)], which returns. *)
Lemma stop_is_drive now r : drive now 0 0 0 0 0 r = Ok (stop r).
Proof. reflexivity. Qed.

Lemma motor_check_early now r :
  now <= motor_stop_time r → motor_check now r = r.
Proof.
  intros H. unfold motor_check.
  assert ((motor_stop_time r <? now) = false) as -> by (apply Z.ltb_ge; lia).
  by rewrite andb_false_r.
Qed.

Lemma motor_check_unset now r : motor_stop_time r = 0 → motor_check now r = r.
Proof. intros H. unfold motor_check. by rewrite H. Qed.

Lemma motor_check_fires now r :
  0 < motor_stop_time r → motor_stop_time r < now →
  motor_check now r =
    set_motor_stop_time 0 (set_pwm_writes (pwm_writes r ++ stop_writes) r).
Proof.
  intros H0 H1. unfold motor_check.
  apply Z.ltb_lt in H0, H1. by rewrite H0, H1.
Qed.

Lemma motor_ticks_unset ticks r :
  motor_stop_time r = 0 → motor_ticks ticks r = r.
Proof.
  induction ticks as [|now rest IH]; intros H; simpl; [done|].
  rewrite motor_check_unset by exact H. by apply IH.
Qed.

Lemma motor_ticks_early ticks r :
  Forall (λ now, now <= motor_stop_time r) ticks → motor_ticks ticks r = r.
Proof.
  induction 1 as [|now rest Hnow _ IH]; simpl; [done|].
  by rewrite motor_check_early.
Qed.

(** In a round of the main loop the motors and the deadline are touched by
    the auto-stop test only, and the test is reached whenever [update]
    returns. *)
Lemma loop_iteration_motor {FO : FloatOps} now now_fade now_motor r r' :
  loop_iteration now now_fade now_motor r = Ok r' →
  motor_stop_time r' = motor_stop_time (motor_check now_motor r) ∧
  pwm_writes r' = pwm_writes (motor_check now_motor r).
Proof.
  unfold loop_iteration. destruct (update now now_fade (anim r)) as [a|x];
    simpl; [|discriminate].
  intros [= <-]. unfold motor_check. simpl.
  by destruct (_ && _).
Qed.

Lemma loop_iteration_total {FA : FloatArith} now now_fade now_motor r :
  wf (anim r) →
  ∃ r', loop_iteration now now_fade now_motor r = Ok r' ∧ wf (anim r').
Proof.
  intros Hwf. unfold loop_iteration.
  destruct (update_total now now_fade (anim r) Hwf) as (a & -> & Hwfa).
  simpl. eexists. split; [reflexivity|].
  unfold motor_check. simpl. by destruct (_ && _).
Qed.

(** C2 as stated, for the forward command (code 64, 400 ms) received at
    tick 0: the deadline is 400, and at the loop round whose reading is
    400, the first with [now >= deadline], no [duty_u16] is called and the
    deadline stays set. *)
Lemma auto_stop_at_deadline_fails :
  ∃ r1 r2,
    ir_callback 0 64 robot0 = Ok r1 ∧ motor_stop_time r1 = 400 ∧
    loop_iteration (FO := exact_ops) 400 400 400 r1 = Ok r2 ∧
    pwm_writes r2 = pwm_writes r1 ∧ motor_stop_time r2 = 400.
Proof.
  eexists _, _. split; [vm_compute; reflexivity|]. split; [reflexivity|].
  split; [vm_compute; reflexivity|]. split; reflexivity.
Qed.

(** C2, amended.  For a [drive] with a positive duration [D] below half
    the period of the counter (from there on [ticks_add] raises
    [OverflowError]) read at tick [now0], the deadline [now0 + D] not
    reaching the end of the counter's period: [drive] returns and the
    deadline is [now0 + D]; the auto-stop test does nothing at a reading
    up to and including the deadline (so at none with elapsed time below
    [D]); at the first reading above the deadline it calls [stop()] once
    (eight [duty_u16(0)]) and clears the deadline; and whatever readings
    follow, no further [duty_u16] is called. *)
Theorem auto_stop_after_deadline r now0 fl fr rl rr D :
  0 < D → D < TICKS_PERIOD / 2 → 0 <= now0 → now0 + D < TICKS_PERIOD →
  ∃ r1,
    drive now0 fl fr rl rr D r = Ok r1 ∧
    motor_stop_time r1 = now0 + D ∧
    (∀ now, now <= now0 + D → motor_check now r1 = r1) ∧
    (∀ before now after,
       Forall (λ t, t <= now0 + D) before → now0 + D < now →
       motor_ticks before r1 = r1 ∧
       pwm_writes (motor_check now r1) = pwm_writes r1 ++ stop_writes ∧
       motor_stop_time (motor_check now r1) = 0 ∧
       motor_ticks (before ++ now :: after) r1 = motor_check now r1).
Proof.
  intros HD Hhalf H0 Hfit.
  rewrite (drive_returns now0 fl fr rl rr D r Hhalf).
  eexists. split; [reflexivity|].
  match goal with |- motor_stop_time ?x = _ ∧ _ => set (r1 := x) end.
  assert (Hdl : motor_stop_time r1 = now0 + D).
  { subst r1. simpl. apply Z.ltb_lt in HD. rewrite HD.
    apply Z.mod_small. lia. }
  split; [exact Hdl|]. split.
  - intros now Hnow. apply motor_check_early. lia.
  - intros before now after Hbefore Hnow.
    assert (Hb : motor_ticks before r1 = r1).
    { apply motor_ticks_early. by rewrite Hdl. }
    assert (Hf : motor_check now r1 =
              set_motor_stop_time 0
                (set_pwm_writes (pwm_writes r1 ++ stop_writes) r1)).
    { apply motor_check_fires; lia. }
    split; [exact Hb|]. rewrite Hf. split; [reflexivity|].
    split; [reflexivity|].
    assert (Happ : ∀ l1 l2 x, motor_ticks (l1 ++ l2) x =
                              motor_ticks l2 (motor_ticks l1 x)).
    { induction l1 as [|t l1 IH]; intros l2 x; simpl; [done|]. apply IH. }
    rewrite Happ, Hb. simpl. rewrite Hf. by apply motor_ticks_unset.
Qed.

(** C3 (the code departs from it).  The fade and the matrix measure time
    with [ticks_diff], which is right across a wrap of the counter
    ([ticks_diff_after]); the auto-stop test compares the wrapped deadline
    with plain [>].  The forward command (code 64, 400 ms) received 100 ms
    before the counter wraps gets the deadline 300, and the loop round
    10 ms later already stops the motors.  Received 400 ms before the
    wrap it gets the deadline 0, which means no deadline: no loop round
    ever stops the motors. *)
Theorem auto_stop_wraparound :
  (∃ r1,
     ir_callback (TICKS_PERIOD - 100) 64 robot0 = Ok r1 ∧
     motor_stop_time r1 = 300 ∧
     ticks_after (TICKS_PERIOD - 100) 10 = TICKS_PERIOD - 90 ∧
     ticks_diff (TICKS_PERIOD - 90) (TICKS_PERIOD - 100) = 10 ∧
     ticks_diff 300 (TICKS_PERIOD - 100) = 400 ∧
     pwm_writes (motor_check (TICKS_PERIOD - 90) r1) =
       pwm_writes r1 ++ stop_writes) ∧
  (∃ r1,
     ir_callback (TICKS_PERIOD - 400) 64 robot0 = Ok r1 ∧
     motor_stop_time r1 = 0 ∧
     ∀ ticks, motor_ticks ticks r1 = r1).
Proof.
  split.
  - eexists. split; [vm_compute; reflexivity|]. by repeat split.
  - eexists. split; [vm_compute; reflexivity|]. split; [reflexivity|].
    intros ticks. by apply motor_ticks_unset.
Qed.

(** ** The dispatcher *)

(** C6.  A code that is negative or not among those the dispatcher
    compares with leaves the whole state as it is: engine, strip, deadline
    and all three output logs; no [duty_u16], no [np.write()], no call of
    the matrix sink. *)
Theorem unmapped_code_no_effect now data r :
  data < 0 ∨ data ∉ dispatch_codes → ir_callback now data r = Ok r.
Proof.
  intros [Hneg|Hnot]; unfold ir_callback.
  - apply Z.ltb_lt in Hneg. by rewrite Hneg.
  - destruct (data <? 0); [reflexivity|].
    unfold dispatch_codes in Hnot.
    repeat (apply not_elem_of_cons in Hnot as [?%Z.eqb_neq Hnot]).
    by repeat match goal with H : (data =? _) = false |- _ => rewrite H; clear H end.
Qed.

(** ** Normalisation of the target *)

(** C10 as stated fails at the empty list: [fade_to([], 1000)] raises
    [IndexError] at [target[0]], and no target vector is stored. *)
Lemma fade_to_empty_list_raises :
  fade_to 0 (TList []) 1000 (init leds) = Raise IndexError.
Proof. reflexivity. Qed.

(** C10, amended.  [fade_to] stores as target vector: a list of colour
    tuples of length [N] as it is; the first element of a non-empty list of
    any other length, [N] times; a single colour tuple, [N] times.  So for
    every target but the empty list the stored vector has length [N]; for
    the empty list [fade_to] raises [IndexError]. *)
Theorem fade_to_normalizes now target duration e :
  (target_ok target →
   ∃ e1, fade_to now target duration e = Ok e1 ∧
         length (rgb_target_colors e1) = num_leds e ∧
         match target with
         | TColor c => rgb_target_colors e1 = replicate (num_leds e) c
         | TList l =>
             (length l = num_leds e → rgb_target_colors e1 = l) ∧
             (length l ≠ num_leds e →
              ∃ c0, l !! 0%nat = Some c0 ∧
                    rgb_target_colors e1 = replicate (num_leds e) c0)
         end) ∧
  (target = TList [] → fade_to now target duration e = Raise IndexError).
Proof.
  split.
  - intros Hok.
    destruct (determine_target_ok (num_leds e) target Hok) as [v Hv].
    exists (faded now v duration e). split; [by apply fade_to_faded|].
    split; [by apply determine_target_length in Hv|]. simpl.
    destruct target as [c|[|c0 l]]; simpl in Hv.
    + by injection Hv.
    + by destruct Hok.
    + case_decide as Hlen; injection Hv as <-; split; intros H; try done.
      by exists c0.
  - intros ->. unfold fade_to, num_leds. rewrite collect_getitem. reflexivity.
Qed.

(** ** Without rounding *)

Lemma Qtrunc_comp x y : (x == y)%Q → Qtrunc x = Qtrunc y.
Proof.
  intros E. apply Qeq_both in E as [H1 H2].
  apply Qtrunc_mono in H1, H2. lia.
Qed.

(** In the arithmetic without rounding the channel value is the quotient,
    truncated toward zero, of [start * duration + (target - start) *
    elapsed] by [duration]. *)
Lemma exact_lerp_channel s t elapsed duration :
  0 < duration →
  lerp_channel (FO := exact_ops) s t (fdiv (of_int elapsed) (of_int duration))
  = (s * duration + (t - s) * elapsed) ÷ duration.
Proof.
  intros Hd. unfold lerp_channel. simpl.
  transitivity (Qtrunc ((s * duration + (t - s) * elapsed) # Z.to_pos duration)).
  - apply Qtrunc_comp. rewrite Qmake_Qdiv, Z2Pos.id by exact Hd.
    rewrite inject_Z_plus, !inject_Z_mult.
    field. intros E. pose proof (inject_Z_pos duration Hd) as Hp.
    rewrite E in Hp. exact (Qlt_irrefl 0 Hp).
  - unfold Qtrunc. simpl. by rewrite Z2Pos.id.
Qed.

(** Rounding shows through the truncation: from 0 towards 49 at progress
    [1/49] the channel is 1 without rounding and 0 in the fixed-point
    arithmetic, where [49 * (1/49)] falls just short of 1.  Both stay
    between start and target. *)
Example rounding_shows :
  lerp_channel (FO := exact_ops) 0 49 (fdiv (of_int 1) (of_int 49)) = 1 ∧
  lerp_channel (FO := fixed_ops) 0 49 (fdiv (of_int 1) (of_int 49)) = 0.
Proof. split; reflexivity. Qed.

(** The start-up fade of [run]: [fade_to((0, 30, 0), 1000)] on the dark
    strip at tick 0 shows [(0, 15, 0)] at tick 500 and [(0, 30, 0)] at tick
    1000, where it ends. *)
Example startup_fade :
  ∃ e1 e2 e3,
    fade_to 0 (TColor (0, 30, 0)) 1000 (init leds) = Ok e1 ∧
    update (FO := exact_ops) 500 500 e1 = Ok e2 ∧
    np e2 = replicate 8 (0, 15, 0) ∧
    update (FO := exact_ops) 1000 1000 e2 = Ok e3 ∧
    np e3 = replicate 8 (0, 30, 0) ∧ rgb_animating e3 = false.
Proof.
  eexists _, _, _. split; [vm_compute; reflexivity|].
  split; [vm_compute; reflexivity|]. split; [reflexivity|].
  split; [vm_compute; reflexivity|]. split; reflexivity.
Qed.

(** ** The claims at concrete inputs *)

(** [fade_endpoints] at the start-up fade (1000 ms), and at the same fade
    with duration 0. *)
Lemma fade_endpoints_witness :
  (0 <= 1000 ∧ wf (init leds) ∧
   fade_to 0 (TColor (0, 30, 0)) 1000 (init leds) = Ok booted ∧
   Forall (exact_color (FO := exact_ops)) (np (init leds))) ∧
  (∃ e2, update (FO := exact_ops) 1000 1000 booted = Ok e2 ∧
         np e2 = replicate 8 (0, 30, 0)) ∧
  (∃ e2, update (FO := exact_ops) 0 0 booted = Ok e2 ∧
         np e2 = replicate 8 (0, 0, 0)) ∧
  (∃ e2, update (FO := exact_ops) 5 5
           (faded 0 (replicate 8 (0, 30, 0)) 0 (init leds)) = Ok e2 ∧
         np e2 = replicate 8 (0, 30, 0)).
Proof.
  assert (Hwf : wf (init leds)).
  { split; [reflexivity | reflexivity | discriminate | discriminate]. }
  assert (Hex : Forall (exact_color (FO := exact_ops)) (np (init leds))).
  { apply Forall_forall. intros c _. by repeat split. }
  assert (Hfade : fade_to 0 (TColor (0, 30, 0)) 1000 (init leds) = Ok booted)
    by reflexivity.
  assert (Hfade0 : fade_to 0 (TColor (0, 30, 0)) 0 (init leds)
                   = Ok (faded 0 (replicate 8 (0, 30, 0)) 0 (init leds)))
    by reflexivity.
  assert (H1000 : 0 <= 1000) by lia.
  destruct (fade_endpoints (FA := exact_arith) (init leds) 0
              (TColor (0, 30, 0)) 1000 booted H1000 Hwf Hfade)
    as (_ & Hlate & _ & Hstart).
  destruct (fade_endpoints (FA := exact_arith) (init leds) 0
              (TColor (0, 30, 0)) 0 _ (Z.le_refl 0) Hwf Hfade0)
    as (_ & _ & Hzero & _).
  split; [by repeat split|]. split; [|split].
  - destruct (Hlate [] booted 1000 1000 eq_refl) as (e2 & Hu & Hnp & _).
    { vm_compute. discriminate. }
    exists e2. by split.
  - destruct (Hstart ltac:(lia) Hex [] booted 0 0 eq_refl eq_refl)
      as (e2 & Hu & Hnp & _).
    exists e2. by split.
  - destruct (Hzero eq_refl 5 5) as (e2 & Hu & Hnp & _).
    { change (TICKS_PERIOD / 2) with 536870912. lia. }
    exists e2. by split.
Defined.

Lemma seq_police_steps_ok : Forall step_ok seq_police.
Proof. apply Forall_forall. intros [tg d] Hin Heq. simpl in Heq. subst tg.
  repeat (apply elem_of_cons in Hin as [Hin|Hin]; [discriminate|]).
  by apply elem_of_nil in Hin.
Qed.


(** The police sequence played once, [update] called as each step ends
    (ticks 100, 150, 250, 300) and twice more: four steps complete, the
    session is over, the strip shows the last target and the two later
    calls write nothing. *)
Example police_once_run :
  ∃ e1 e e',
    play_rgb_sequence 0 seq_police false (init leds) = Ok e1 ∧
    run_ticks (FO := exact_ops)
      [(50, 50); (100, 100); (150, 150); (250, 250); (300, 300)] e1
      = Ok (4%nat, e) ∧
    rgb_seq_active e = false ∧ rgb_animating e = false ∧
    np e = replicate 8 (0, 0, 0) ∧
    run_ticks (FO := exact_ops) [(310, 310); (1000, 1000)] e = Ok (0%nat, e') ∧
    np_written e' = np_written e.
Proof.
  eexists _, _, _. split; [vm_compute; reflexivity|].
  split; [vm_compute; reflexivity|].
  do 3 (split; [reflexivity|]).
  split; [vm_compute; reflexivity|]. reflexivity.
Qed.

(** [sequence_loop_stays_active] at the police sequence, looping, followed
    through its four steps twice. *)
Lemma sequence_loop_stays_active_witness :
  (seq_police ≠ [] ∧ Forall step_ok seq_police) ∧
  ∃ e1 n e,
    play_rgb_sequence 0 seq_police true (init leds) = Ok e1 ∧
    run_ticks (FO := exact_ops)
      [(100, 100); (150, 150); (250, 250); (300, 300);
       (400, 400); (450, 450); (550, 550); (600, 600)] e1 = Ok (n, e) ∧
    rgb_seq_active e = true ∧ rgb_animating e = true ∧
    rgb_seq_idx e = (n mod length seq_police)%nat.
Proof.
  assert (Hne : seq_police ≠ []) by discriminate.
  split; [split; [exact Hne|exact seq_police_steps_ok]|].
  destruct (sequence_loop_stays_active (FA := exact_arith) seq_police
              (init leds) 0 Hne seq_police_steps_ok) as (e1 & Hplay & Hrun).
  destruct (Hrun [(100, 100); (150, 150); (250, 250); (300, 300);
                  (400, 400); (450, 450); (550, 550); (600, 600)])
    as (n & e & Hticks & Ha & Han & Hi & _).
  by exists e1, n, e.
Defined.

(** The police sequence looping, as code 69 starts it: after the four
    steps, and after eight, the cursor is back on step 0, whose target
    (red) and duration (100 ms) are loaded. *)
Example police_loop_run :
  ∃ r1 e4 e8,
    ir_callback 0 69 robot0 = Ok r1 ∧
    run_ticks (FO := exact_ops)
      [(100, 100); (150, 150); (250, 250); (300, 300)] (anim r1)
      = Ok (4%nat, e4) ∧
    rgb_seq_active e4 = true ∧ rgb_seq_idx e4 = 0%nat ∧
    rgb_target_colors e4 = replicate 8 (150, 0, 0) ∧ rgb_duration e4 = 100 ∧
    run_ticks (FO := exact_ops)
      [(400, 400); (450, 450); (550, 550); (600, 600)] e4
      = Ok (4%nat, e8) ∧
    rgb_seq_active e8 = true ∧ rgb_seq_idx e8 = 0%nat.
Proof.
  eexists _, _, _. split; [vm_compute; reflexivity|].
  split; [vm_compute; reflexivity|].
  do 4 (split; [reflexivity|]).
  split; [vm_compute; reflexivity|]. split; reflexivity.
Qed.

(** [unmapped_code_no_effect] at the sentinel -1 and at the unmapped code 1,
    while the start-up fade runs. *)
Lemma unmapped_code_no_effect_witness :
  (-1 < 0 ∨ -1 ∉ dispatch_codes) ∧
  (1 < 0 ∨ 1 ∉ dispatch_codes) ∧
  ir_callback 7 (-1) (set_anim booted robot0) = Ok (set_anim booted robot0) ∧
  ir_callback 7 1 (set_anim booted robot0) = Ok (set_anim booted robot0).
Proof.
  assert (H1 : -1 < 0 ∨ -1 ∉ dispatch_codes) by (left; lia).
  assert (H2 : 1 < 0 ∨ 1 ∉ dispatch_codes).
  { right. unfold dispatch_codes. intros Hin.
    repeat (apply elem_of_cons in Hin as [Hin|Hin]; [discriminate|]).
    by apply elem_of_nil in Hin. }
  split; [exact H1|]. split; [exact H2|]. split.
  - exact (unmapped_code_no_effect 7 (-1) (set_anim booted robot0) H1).
  - exact (unmapped_code_no_effect 7 1 (set_anim booted robot0) H2).
Defined.

(** [interpolation_monotone] at the start-up fade, half way. *)
Lemma interpolation_monotone_witness :
  (wf booted ∧ rgb_animating booted = true ∧
   ticks_diff 500 (rgb_start_time booted) < rgb_duration booted ∧
   0 < rgb_duration booted) ∧
  (∃ e2, update (FO := exact_ops) 500 500 booted = Ok e2 ∧
         np_written e2 = np_written booted ++ [np e2] ∧
         np e2 !! 0%nat = Some (0, 15, 0)) ∧
  lerp_channel (FO := exact_ops) 0 30 (1 # 3) <=
    lerp_channel (FO := exact_ops) 0 30 (1 # 2) ∧
  Z.min 0 30 <= lerp_channel (FO := exact_ops) 0 30 (1 # 2) <= Z.max 0 30.
Proof.
  assert (Hwf : wf booted).
  { split; [reflexivity | reflexivity | discriminate | discriminate]. }
  assert (Hlt : ticks_diff 500 (rgb_start_time booted) < rgb_duration booted)
    by reflexivity.
  assert (Hpos : 0 < rgb_duration booted) by reflexivity.
  destruct (interpolation_monotone (FA := exact_arith) booted 500 500
              Hwf eq_refl Hlt Hpos)
    as ((e2 & computed & Hu & Hnp & Hnw & _ & Hch & Hbyte) & _ & Hmono
        & Hbetween & _).
  split; [by repeat split|]. split; [|split].
  - exists e2. split; [exact Hu|]. split; [exact Hnw|].
    rewrite (Hbyte 0%nat (0, 0, 0) (0, 30, 0) eq_refl eq_refl).
    + exact (Hch 0%nat (0, 0, 0) (0, 30, 0) eq_refl eq_refl).
    + repeat split; discriminate.
    + repeat split; discriminate.
    + by repeat split.
    + vm_compute. discriminate.
  - apply (Hmono 0 30 (1 # 3)%Q (1 # 2)%Q); [discriminate|lia].
  - apply (Hbetween 0 30 (1 # 2)%Q I I I); discriminate.
Defined.

(** [auto_stop_after_deadline] at the forward command received at tick 0. *)
Lemma auto_stop_after_deadline_witness :
  (0 < 400 ∧ 400 < TICKS_PERIOD / 2 ∧ 0 <= 0 ∧ 0 + 400 < TICKS_PERIOD) ∧
  ∃ r1,
    drive 0 1 1 1 1 400 robot0 = Ok r1 ∧
    motor_stop_time r1 = 0 + 400 ∧
    motor_check 399 r1 = r1 ∧
    pwm_writes (motor_ticks [10; 399; 400; 410; 420; 5000] r1)
      = pwm_writes r1 ++ stop_writes.
Proof.
  assert (H1 : 0 < 400) by lia.
  assert (Hh : 400 < TICKS_PERIOD / 2) by reflexivity.
  assert (H2 : 0 <= 0) by lia.
  assert (H3 : 0 + 400 < TICKS_PERIOD) by reflexivity.
  destruct (auto_stop_after_deadline robot0 0 1 1 1 1 400 H1 Hh H2 H3)
    as (r1 & Hdrive & Hdl & Hearly & Hfire).
  split; [by repeat split|]. exists r1.
  split; [exact Hdrive|]. split; [exact Hdl|]. split.
  - apply Hearly. lia.
  - destruct (Hfire [10; 399; 400] 410 [420; 5000]) as (_ & Hw & _ & Hrun).
    + repeat (constructor; [lia|]). constructor.
    + lia.
    + change ([10; 399; 400; 410; 420; 5000])
        with ([10; 399; 400] ++ 410 :: [420; 5000]).
      rewrite Hrun. exact Hw.
Defined.

(** [frame_cycler] at the talking face, 210 ms after it was started. *)
Lemma frame_cycler_witness :
  let e1 := play_matrix 0 matrix_anim_talk 200 (init leds) in
  matrix_animating e1 = true ∧ matrix_frames e1 ≠ [] ∧
  matrix_delay e1 < ticks_diff 210 (matrix_last_tick e1) ∧
  ∃ e',
    matrix_logic 210 e1 = Ok e' ∧ matrix_idx e' = 1%nat ∧
    matrix_calls e' = [face1; face2] ∧ matrix_last_tick e' = 210.
Proof.
  destruct frame_cycler as (_ & Htick & _).
  assert (Hne : matrix_frames (play_matrix 0 matrix_anim_talk 200 (init leds))
                ≠ []) by discriminate.
  destruct (Htick 210 (play_matrix 0 matrix_anim_talk 200 (init leds))
              eq_refl Hne) as (Hadv & _).
  destruct (Hadv eq_refl) as (e' & frame & Hm & Hi & Hf & Hc & Ht & _).
  split; [reflexivity|]. split; [exact Hne|]. split; [reflexivity|].
  exists e'. split; [exact Hm|]. split; [exact Hi|]. split; [|exact Ht].
  rewrite Hc. rewrite Hi in Hf. injection Hf as <-. reflexivity.
Defined.

(** [fade_to_normalizes] at a single colour, at a list of the wrong length
    and at the empty list, on the strip of eight. *)
Lemma fade_to_normalizes_witness :
  (target_ok (TColor C_RED) ∧ target_ok (TList [C_BLUE; C_RED])) ∧
  (∃ e1, fade_to 0 (TColor C_RED) 100 (init leds) = Ok e1 ∧
         rgb_target_colors e1 = replicate 8 C_RED) ∧
  (∃ e1, fade_to 0 (TList [C_BLUE; C_RED]) 100 (init leds) = Ok e1 ∧
         rgb_target_colors e1 = replicate 8 C_BLUE) ∧
  fade_to 0 (TList []) 100 (init leds) = Raise IndexError.
Proof.
  assert (H1 : target_ok (TColor C_RED)) by discriminate.
  assert (H2 : target_ok (TList [C_BLUE; C_RED])) by discriminate.
  split; [by split|]. split; [|split].
  - destruct (fade_to_normalizes 0 (TColor C_RED) 100 (init leds))
      as (Hok & _).
    destruct (Hok H1) as (e1 & Hf & _ & Ht). by exists e1.
  - destruct (fade_to_normalizes 0 (TList [C_BLUE; C_RED]) 100 (init leds))
      as (Hok & _).
    destruct (Hok H2) as (e1 & Hf & _ & _ & Hbroadcast).
    destruct Hbroadcast as (c0 & Hc0 & Ht); [discriminate|].
    injection Hc0 as <-. by exists e1.
  - destruct (fade_to_normalizes 0 (TList []) 100 (init leds)) as (_ & Hraise).
    exact (Hraise eq_refl).
Defined.

(** * Further properties *)

(** ** The two blocks of [update] keep to their side *)

Section Sides.
Context {FA : FloatArith}.

Lemma faded_matrix_part now v duration_ms e :
  matrix_part (faded now v duration_ms e) = matrix_part e.
Proof. reflexivity. Qed.

(** The RGB block leaves the matrix side as it is. *)
Lemma rgb_logic_matrix_part now now_fade e k e1 :
  rgb_logic now now_fade e = Ok (k, e1) → matrix_part e1 = matrix_part e.
Proof.
  unfold rgb_logic. destruct (rgb_animating e); [|by intros [= <- <-]].
  destruct (_ <=? _).
  - destruct (apply_target e) as [buf|x]; simpl; [|discriminate].
    destruct (rgb_seq_active e) eqn:Ha; simpl; [|by intros [= <- <-]].
    match goal with
    | |- context [match ?w with Some _ => _ | None => _ end] =>
        destruct w as [e2|] eqn:Hw
    end.
    + assert (Hm : matrix_part e2 = matrix_part e).
      { destruct (_ <=? _)%nat; [destruct (rgb_seq_loop e)|];
          simplify_eq; reflexivity. }
      destruct (getitem _ _) as [[tg d]|x]; simpl; [|discriminate].
      destruct (fade_to now_fade tg d e2) as [e3|x] eqn:Hf; simpl; [|discriminate].
      intros [= <- <-]. apply fade_to_inv in Hf as (v & _ & ->).
      by rewrite faded_matrix_part.
    + by intros [= <- <-].
  - destruct (0 <? _); [|by intros [= <- <-]].
    destruct (apply_lerp _ e) as [buf|x]; simpl; [|discriminate].
    by intros [= <- <-].
Qed.

(** The matrix block leaves the RGB side as it is. *)
Lemma matrix_logic_rgb_part now e e' :
  matrix_logic now e = Ok e' → rgb_part e' = rgb_part e.
Proof.
  destruct (matrix_logic_total now e) as (c & i & t & ->).
  by intros [= <-].
Qed.

(** With the matrix stopped, or without frames, [update] leaves the whole
    matrix side as it is. *)
Lemma update_matrix_off now now_fade e e' :
  matrix_animating e = false ∨ matrix_frames e = [] →
  update now now_fade e = Ok e' → matrix_part e' = matrix_part e.
Proof.
  intros Hoff. unfold update.
  destruct (rgb_logic now now_fade e) as [[k e1]|x] eqn:Hr; simpl; [|discriminate].
  pose proof (rgb_logic_matrix_part _ _ _ _ _ Hr) as Hm.
  destruct k.
  - rewrite matrix_logic_off.
    + by intros [= <-].
    + unfold matrix_part in Hm. injection Hm as _ Ha Hf _ _ _.
      rewrite Ha, Hf. exact Hoff.
  - by intros [= <-].
Qed.

Lemma run_ticks_matrix_off ticks :
  ∀ e, wf e → matrix_animating e = false ∨ matrix_frames e = [] →
  ∃ n e', run_ticks ticks e = Ok (n, e') ∧ wf e' ∧
          matrix_part e' = matrix_part e.
Proof.
  induction ticks as [|[now now_fade] rest IH]; intros e Hwf Hoff; simpl.
  - by exists 0%nat, e.
  - destruct (update_total now now_fade e Hwf) as (e1 & Hu & Hwf1).
    pose proof (update_matrix_off _ _ _ _ Hoff Hu) as Hm.
    rewrite Hu. simpl.
    destruct (IH e1 Hwf1) as (n & e' & -> & Hwf' & Hm').
    { unfold matrix_part in Hm. injection Hm as _ Ha Hf _ _ _.
      by rewrite Ha, Hf. }
    simpl. eexists _, e'. split; [reflexivity|]. split; [exact Hwf'|].
    by rewrite Hm'.
Qed.

(** X1.  [stop_rgb()] turns the strip off and writes it out once, whatever
    fade or sequence was running; after it no call of [update] finds a
    fade over, changes the strip or writes it out. *)
Theorem stop_rgb_silences e ticks :
  ∃ e', run_ticks ticks (stop_rgb e) = Ok (0%nat, e') ∧
        np e' = replicate (num_leds e) (0, 0, 0) ∧
        np_written e' = np_written e ++ [replicate (num_leds e) (0, 0, 0)] ∧
        rgb_animating e' = false ∧ rgb_seq_active e' = false.
Proof.
  destruct (run_ticks_idle ticks (stop_rgb e) eq_refl)
    as (e' & Hrun & Hnp & Hnw & Han & Ha).
  exists e'. by repeat split.
Qed.

(** X2.  After [stop_matrix()] no call of [update] renders a frame: the
    matrix sink receives nothing more, and frames, cursor and last tick
    stay as they were, so the last frame rendered stays on the display. *)
Theorem stop_matrix_freezes e ticks :
  wf e →
  ∃ n e', run_ticks ticks (stop_matrix e) = Ok (n, e') ∧
          matrix_calls e' = matrix_calls e ∧
          matrix_animating e' = false ∧
          matrix_frames e' = matrix_frames e ∧
          matrix_idx e' = matrix_idx e ∧
          matrix_last_tick e' = matrix_last_tick e.
Proof.
  intros Hwf.
  destruct (run_ticks_matrix_off ticks (stop_matrix e)) as (n & e' & Hrun & _ & Hm).
  - by apply stop_matrix_wf.
  - by left.
  - exists n, e'. split; [exact Hrun|].
    unfold matrix_part in Hm. simpl in Hm. injection Hm as -> -> -> _ -> ->.
    by repeat split.
Qed.

End Sides.

(** ** What the engine's methods accept *)

Section Methods.
Context {FA : FloatArith}.

Lemma update_num_leds now now_fade e e' :
  wf e → update now now_fade e = Ok e' → num_leds e' = num_leds e.
Proof.
  intros Hwf Hu. destruct (fade_due now e) eqn:Hdue.
  - unfold fade_due in Hdue. apply andb_prop in Hdue as [Han Hd].
    apply Z.leb_le in Hd.
    destruct (update_done now now_fade e Hwf Han Hd) as (e2 & Hu2 & Hnp & _).
    rewrite Hu in Hu2. injection Hu2 as <-.
    unfold num_leds. rewrite Hnp, length_map. apply (wf_target e Hwf).
  - destruct (update_not_due now now_fade e Hwf Hdue) as (e2 & Hu2 & Hs).
    rewrite Hu in Hu2. injection Hu2 as <-.
    unfold session in Hs. by injection Hs.
Qed.

Lemma do_call_ok c e :
  call_ok c → wf e →
  ∃ e', do_call c e = Ok e' ∧ wf e' ∧ num_leds e' = num_leds e.
Proof.
  intros Hok Hwf. destruct c as [now tg d|now sq lp| |now fr dl| |now nf]; simpl in *.
  - destruct (determine_target_ok (num_leds e) tg Hok) as [v Hv].
    pose proof (fade_to_faded now tg d e v Hv) as Hf.
    exists (faded now v d e). split; [exact Hf|].
    split; [by apply (fade_to_wf now tg d e)|reflexivity].
  - destruct Hok as [Hne Hall].
    destruct sq as [|[tg d] rest] eqn:Hsq; [done|]. rewrite <- Hsq in *.
    assert (H0 : sq !! 0%nat = Some (tg, d)) by by rewrite Hsq.
    destruct (play_rgb_sequence_ok now sq lp e tg d H0 Hall) as (v & Hv & Hp).
    eexists. split; [exact Hp|].
    split; [by apply (play_rgb_sequence_wf now sq lp e)|reflexivity].
  - eexists. split; [reflexivity|]. split; [by apply stop_rgb_wf|].
    unfold num_leds. simpl. apply length_replicate.
  - eexists. split; [reflexivity|]. split; [by apply play_matrix_wf|].
    unfold play_matrix. simpl. by destruct fr.
  - eexists. split; [reflexivity|]. split; [by apply stop_matrix_wf|reflexivity].
  - destruct (update_total now nf e Hwf) as (e' & Hu & Hwf').
    exists e'. split; [exact Hu|]. split; [exact Hwf'|].
    by apply (update_num_leds now nf e).
Qed.

(** X3.  An engine made by [__init__] and then used through its methods
    never raises and keeps its invariant and the length of the strip, as
    long as no [fade_to] gets the empty list as target and every
    [play_rgb_sequence] gets a non-empty sequence without such a target:
    in particular [update] never indexes outside the sequence or the
    colour vectors. *)
Theorem engine_never_raises pixels calls :
  Forall call_ok calls →
  ∃ e, do_calls calls (init pixels) = Ok e ∧ wf e ∧
       num_leds e = length pixels.
Proof.
  intros Hall.
  assert (Hgen : ∀ e0, wf e0 →
            ∃ e, do_calls calls e0 = Ok e ∧ wf e ∧ num_leds e = num_leds e0).
  { induction Hall as [|c rest Hc _ IH]; intros e0 Hwf; simpl.
    - by exists e0.
    - destruct (do_call_ok c e0 Hc Hwf) as (e1 & -> & Hwf1 & HN1). simpl.
      destruct (IH e1 Hwf1) as (e2 & Hrun & Hwf2 & HN2).
      exists e2. split; [exact Hrun|]. split; [exact Hwf2|]. congruence. }
  apply (Hgen (init pixels)), init_wf.
Qed.

(** The fade is over: what the RGB block does needs only the target vector
    to have one entry per LED. *)
Lemma rgb_logic_done_next now now_fade e j :
  length (rgb_target_colors e) = num_leds e →
  rgb_animating e = true → rgb_seq_active e = true →
  rgb_duration e <= ticks_diff now (rgb_start_time e) →
  next_idx e = Some j →
  rgb_logic now now_fade e =
    ('(target, duration) ← getitem (rgb_sequence e) j;
     e' ← fade_to now_fade target duration (set_rgb_seq_idx j (target_shown e));
     Ok (FallThrough, e')).
Proof.
  intros Hlen Han Ha Hd Hj. unfold rgb_logic. rewrite Han.
  apply Z.leb_le in Hd. rewrite Hd.
  rewrite (apply_target_ok e Hlen).
  unfold next_idx, target_shown in *. destruct e; simpl in *. subst.
  destruct (_ <=? _)%nat; [destruct rgb_seq_loop0|]; simplify_eq; reflexivity.
Qed.

(** X4.  [play_rgb_sequence] raises [IndexError] exactly when the sequence
    is empty or its first target is the empty list.  It does not look at
    later steps: when the step the cursor moves to has the empty list as
    target, the call of [update] that finds the running fade over raises
    [IndexError]. *)
Theorem play_rgb_sequence_checks_first_step_only :
  (∀ now sequence loop e,
     play_rgb_sequence now sequence loop e = Raise IndexError ↔
     sequence = [] ∨ ∃ duration rest, sequence = (TList [], duration) :: rest) ∧
  (∀ now now_fade e j duration,
     length (rgb_target_colors e) = num_leds e →
     rgb_animating e = true → rgb_seq_active e = true →
     rgb_duration e <= ticks_diff now (rgb_start_time e) →
     next_idx e = Some j →
     rgb_sequence e !! j = Some (TList [], duration) →
     update now now_fade e = Raise IndexError).
Proof.
  split.
  - intros now sq lp e. split.
    + intros Hraise. destruct sq as [|[tg d] rest]; [by left|]. right.
      destruct tg as [c|[|c0 l]].
      * exfalso. unfold play_rgb_sequence in Hraise. simpl in Hraise.
        rewrite (fade_to_faded _ _ _ _ (replicate (num_leds e) c)) in Hraise
          by reflexivity. discriminate.
      * by exists d, rest.
      * exfalso. unfold play_rgb_sequence in Hraise. simpl in Hraise.
        destruct (determine_target_ok (num_leds e) (TList (c0 :: l)))
          as [v Hv]; [discriminate|].
        rewrite (fade_to_faded _ _ _ _ v) in Hraise by exact Hv. discriminate.
    + intros [->|(d & rest & ->)]; [reflexivity|].
      unfold play_rgb_sequence, fade_to, num_leds. simpl.
      by rewrite collect_getitem.
  - intros now now_fade e j d Hlen Han Ha Hdue Hj Hstep.
    unfold update.
    rewrite (rgb_logic_done_next now now_fade e j Hlen Han Ha Hdue Hj).
    rewrite (getitem_Some _ _ _ Hstep). simpl.
    unfold fade_to, num_leds. simpl. by rewrite collect_getitem.
Qed.

(** X5.  A [fade_to] called while a sequence is active does not end the
    sequence: the fade replaces the rest of the current step, and the call
    of [update] that finds it over shows its target, as the strip stores
    it, and moves the cursor on as after a step of the sequence: to the
    next step, back to step 0 of a looping sequence, or off the end of a
    sequence played once, which ends the session. *)
Theorem fade_to_resumes_sequence e now target D e1 now' now_fade :
  wf e → rgb_seq_active e = true →
  fade_to now target D e = Ok e1 →
  D <= ticks_diff now' now →
  rgb_seq_active e1 = true ∧ rgb_seq_idx e1 = rgb_seq_idx e ∧
  ∃ e2, update now' now_fade e1 = Ok e2 ∧
        np e2 = map as_pixel (rgb_target_colors e1) ∧
        ((rgb_seq_idx e + 1 < length (rgb_sequence e))%nat →
         playing (num_leds e) (rgb_sequence e) (rgb_seq_loop e)
           (rgb_seq_idx e + 1) e2) ∧
        ((length (rgb_sequence e) <= rgb_seq_idx e + 1)%nat →
         rgb_seq_loop e = true →
         playing (num_leds e) (rgb_sequence e) true 0 e2) ∧
        ((length (rgb_sequence e) <= rgb_seq_idx e + 1)%nat →
         rgb_seq_loop e = false →
         rgb_seq_active e2 = false ∧ rgb_animating e2 = false).
Proof.
  intros Hwf Ha Hfade Hdue.
  pose proof (fade_to_wf _ _ _ _ _ Hwf Hfade) as Hwf1.
  pose proof (wf_idx e Hwf Ha) as Hidx.
  apply fade_to_inv in Hfade as (v & Hv & ->).
  split; [exact Ha|]. split; [reflexivity|].
  pose proof (rgb_logic_done now' now_fade _ Hwf1 eq_refl Hdue) as Hr.
  simpl in Hr. rewrite Ha in Hr. unfold next_idx in Hr. simpl in Hr.
  destruct (Nat.leb_spec (length (rgb_sequence e)) (rgb_seq_idx e + 1))
    as [Hle|Hlt].
  - destruct (rgb_seq_loop e) eqn:Hloop.
    + destruct (next_step_ok now_fade (faded now v D e) 0 Hwf1 Ha)
        as (e1' & He1 & Hnp & _ & Hp); [simpl; lia|].
      simpl in He1. rewrite He1 in Hr.
      destruct (update_fallthrough _ _ _ _ Hr) as (c & ix & t & Hu).
      eexists. split; [exact Hu|]. split; [exact Hnp|].
      split; [intros; lia|]. split; [|intros _ [=]].
      intros _ _. specialize (Hp c ix t). simpl in Hp.
      by rewrite Hloop in Hp.
    + eexists. split; [exact (update_return _ _ _ _ Hr)|].
      split; [reflexivity|]. split; [intros; lia|].
      split; [intros _ [=]|]. intros _ _. by split.
  - destruct (next_step_ok now_fade (faded now v D e) (rgb_seq_idx e + 1)
                Hwf1 Ha Hlt)
      as (e1' & He1 & Hnp & _ & Hp).
    simpl in He1. rewrite He1 in Hr.
    destruct (update_fallthrough _ _ _ _ Hr) as (c & ix & t & Hu).
    eexists. split; [exact Hu|]. split; [exact Hnp|].
    split; [intros _; apply Hp|]. split; intros; lia.
Qed.

End Methods.

(** ** Motors *)

Lemma duty_now_app l w m pin :
  duty_now (l ++ w) m pin =
    match duty_now w m pin with
    | Some v => Some v
    | None => duty_now l m pin
    end.
Proof. unfold duty_now. by rewrite omap_app, last_app. Qed.

(** After [drive] every pin is at the duty [drive] gave it, whatever was
    written before. *)
Lemma duty_now_driven fl fr rl rr deadline r m :
  duty_now (pwm_writes (driven fl fr rl rr deadline r)) m 0
    = Some (if 0 <? direction fl fr rl rr m then speed else 0) ∧
  duty_now (pwm_writes (driven fl fr rl rr deadline r)) m 1
    = Some (if direction fl fr rl rr m <? 0 then speed else 0).
Proof.
  unfold driven. simpl. rewrite !duty_now_app. by destruct m.
Qed.

(** X6.  For a duration below half the period of the tick counter [drive]
    returns, and each motor then has its forward pin at [speed] exactly
    when its direction is positive and its reverse pin at [speed] exactly
    when its direction is negative, whatever the pins were at before; so
    no motor is left with both pins driven, and every duty is 0 or 32768.
    [drive] has made eight [duty_u16] calls, has left the engine alone,
    and has set the deadline, to the reading plus the duration modulo the
    period, only for a positive duration.  From half the period on
    [drive] raises [OverflowError], at its call of [ticks_add]. *)
Theorem drive_end_state now fl fr rl rr duration r m :
  (duration < TICKS_PERIOD / 2 →
   ∃ r', drive now fl fr rl rr duration r = Ok r' ∧
     let d := direction fl fr rl rr m in
     duty_now (pwm_writes r') m 0 = Some (if 0 <? d then speed else 0) ∧
     duty_now (pwm_writes r') m 1 = Some (if d <? 0 then speed else 0) ∧
     (duty_now (pwm_writes r') m 0 = Some 0 ∨
      duty_now (pwm_writes r') m 1 = Some 0) ∧
     length (pwm_writes r') = (length (pwm_writes r) + 8)%nat ∧
     anim r' = anim r ∧
     motor_stop_time r' =
       (if 0 <? duration then (now + duration) mod TICKS_PERIOD else 0)) ∧
  (TICKS_PERIOD / 2 <= duration →
   drive now fl fr rl rr duration r = Raise OverflowError).
Proof.
  split; [|apply drive_overflow].
  intros Hd. rewrite (drive_returns now fl fr rl rr duration r Hd).
  eexists. split; [reflexivity|]. cbv zeta.
  destruct (duty_now_driven fl fr rl rr
              (if 0 <? duration then (now + duration) mod TICKS_PERIOD else 0)
              r m) as [H0 H1].
  split; [exact H0|]. split; [exact H1|]. split; [|split; [|split]].
  - rewrite H0, H1.
    destruct (Z.ltb_spec 0 (direction fl fr rl rr m)); [right|by left].
    by rewrite (proj2 (Z.ltb_ge _ _)) by lia.
  - unfold driven. simpl. rewrite length_app. reflexivity.
  - reflexivity.
  - reflexivity.
Qed.

(** Between the two [duty_u16] calls [drive] makes for one motor, a motor
    going from reverse to forward has both pins at [speed]. *)
Example drive_reversal_transient :
  let r1 := driven (-1) (-1) (-1) (-1) 400 robot0 in
  let between := pwm_writes r1 ++ take 1 (duty_pair M1 1) in
  drive 0 (-1) (-1) (-1) (-1) 400 robot0 = Ok r1 ∧
  duty_now between M1 0 = Some speed ∧ duty_now between M1 1 = Some speed.
Proof. repeat split; reflexivity. Qed.

(** X7.  When the auto-stop test of the loop fires (a deadline is set and
    the reading is above it), every pin of every motor is left at duty 0,
    whatever was driven, the deadline is cleared and the engine is left
    alone. *)
Theorem auto_stop_neutralises now r m pin :
  0 < motor_stop_time r → motor_stop_time r < now → (pin < 2)%nat →
  duty_now (pwm_writes (motor_check now r)) m pin = Some 0 ∧
  motor_stop_time (motor_check now r) = 0 ∧
  anim (motor_check now r) = anim r.
Proof.
  intros H0 H1 Hpin. rewrite (motor_check_fires now r H0 H1). simpl.
  split; [|by split].
  rewrite duty_now_app.
  destruct m; destruct pin as [|[|pin]]; try lia; reflexivity.
Qed.

Lemma auto_stop_neutralises_witness :
  let r := driven 1 (-1) 1 (-1) 400 robot0 in
  drive 0 1 (-1) 1 (-1) 400 robot0 = Ok r ∧
  (0 < motor_stop_time r ∧ motor_stop_time r < 401 ∧ (1 < 2)%nat) ∧
  duty_now (pwm_writes r) M2 1 = Some speed ∧
  duty_now (pwm_writes (motor_check 401 r)) M2 1 = Some 0.
Proof.
  assert (H0 : 0 < motor_stop_time (driven 1 (-1) 1 (-1) 400 robot0))
    by reflexivity.
  assert (H1 : motor_stop_time (driven 1 (-1) 1 (-1) 400 robot0) < 401)
    by reflexivity.
  assert (H2 : (1 < 2)%nat) by lia.
  split; [reflexivity|].
  split; [by repeat split|]. split; [reflexivity|].
  exact (proj1 (auto_stop_neutralises 401 _ M2 1%nat H0 H1 H2)).
Defined.

(** X8.  The [KeyboardInterrupt] handler of [run] leaves, from any state,
    every pin of every motor at duty 0 and no deadline pending, the strip
    all off and written out once more, and clears the matrix with one
    write of sixteen zero bytes at address 0; it does not touch the
    engine's sessions. *)
Theorem shutdown_neutral r m pin :
  (pin < 2)%nat →
  let r' := (shutdown r).1 in
  duty_now (pwm_writes r') m pin = Some 0 ∧
  motor_stop_time r' = 0 ∧
  np (anim r') = replicate (num_leds (anim r)) (0, 0, 0) ∧
  np_written (anim r') = np_written (anim r) ++ [np (anim r')] ∧
  session (anim r') = session (anim r) ∧
  matrix_part (anim r') = matrix_part (anim r) ∧
  (shutdown r).2 = [WritetoMem HT_ADDR 0 (replicate 16 0)].
Proof.
  intros Hpin r'. subst r'. unfold shutdown. simpl.
  split; [|split; [reflexivity|]].
  - rewrite duty_now_app.
    destruct m; destruct pin as [|[|pin]]; try lia; reflexivity.
  - split; [reflexivity|]. split; [reflexivity|].
    split; [|by split]. unfold session, num_leds. simpl.
    by rewrite length_replicate.
Qed.

Lemma shutdown_neutral_witness :
  (0 < 2)%nat ∧
  let r := driven 1 1 1 1 400 (set_anim booted robot0) in
  drive 0 1 1 1 1 400 (set_anim booted robot0) = Ok r ∧
  duty_now (pwm_writes r) M3 0 = Some speed ∧
  duty_now (pwm_writes (shutdown r).1) M3 0 = Some 0 ∧
  np (anim (shutdown r).1) = replicate 8 (0, 0, 0).
Proof.
  assert (H : (0 < 2)%nat) by lia.
  split; [exact H|]. split; [reflexivity|]. split; [reflexivity|].
  destruct (shutdown_neutral (driven 1 1 1 1 400 (set_anim booted robot0))
              M3 0%nat H) as (Hd & _ & Hnp & _).
  split; [exact Hd|exact Hnp].
Defined.

(** ** The matrix driver *)

Lemma frame_ok_cases (data : list Z) :
  frame_ok data →
  ∃ a0 a1 a2 a3 a4 a5 a6 a7 b0 b1 b2 b3 b4 b5 b6 b7,
    data = [a0; a1; a2; a3; a4; a5; a6; a7; b0; b1; b2; b3; b4; b5; b6; b7] ∧
    Forall is_byte data.
Proof.
  intros [Hlen Hb].
  do 16 (destruct data as [|? data]; [discriminate|]).
  destruct data; [|discriminate].
  by repeat eexists.
Qed.

(** Sixteen bytes go out in one write, interleaved. *)
Lemma display_frame_i2c_ok data :
  frame_ok data →
  ∃ buf, display_frame_i2c data = Ok [WritetoMem HT_ADDR 0 buf] ∧
         length buf = 16%nat ∧
         (∀ i, (i < 8)%nat →
               buf !! (i * 2)%nat = data !! i ∧
               buf !! (i * 2 + 1)%nat = data !! (i + 8)%nat) ∧
         deinterleave buf = data.
Proof.
  intros Hok.
  destruct (frame_ok_cases data Hok)
    as (a0 & a1 & a2 & a3 & a4 & a5 & a6 & a7 &
        b0 & b1 & b2 & b3 & b4 & b5 & b6 & b7 & -> & Hb).
  repeat match goal with
         | H : Forall _ (_ :: _) |- _ => apply Forall_cons in H as [? H]
         end.
  unfold is_byte in *.
  exists [a0; b0; a1; b1; a2; b2; a3; b3; a4; b4; a5; b5; a6; b6; a7; b7].
  split; [|split; [reflexivity|split; [|reflexivity]]].
  - cbv -[Z.modulo]. rewrite !Z.mod_small by lia. reflexivity.
  - intros i Hi.
    do 8 (destruct i as [|i]; [split; reflexivity|]). lia.
Qed.

(** X9.  [display_frame] sends nothing when its argument does not have
    sixteen entries.  For sixteen bytes it makes one [writeto_mem] at
    address 0 of sixteen bytes in which entry [i] of the first half of the
    frame is at position [2 i] and entry [i] of the second half at
    position [2 i + 1]; reading the buffer back by those positions gives
    the frame again, so no byte of it is lost or moved by the loop. *)
Theorem display_frame_i2c_layout data :
  (length data ≠ 16%nat → display_frame_i2c data = Ok []) ∧
  (frame_ok data →
   ∃ buf, display_frame_i2c data = Ok [WritetoMem HT_ADDR 0 buf] ∧
          length buf = 16%nat ∧
          (∀ i, (i < 8)%nat →
                buf !! (i * 2)%nat = data !! i ∧
                buf !! (i * 2 + 1)%nat = data !! (i + 8)%nat) ∧
          deinterleave buf = data).
Proof.
  split.
  - intros Hlen. unfold display_frame_i2c. by rewrite decide_True.
  - apply display_frame_i2c_ok.
Qed.

(** ** The order of the frames *)

Lemma cycle_upto_S frames k :
  cycle_upto frames (S k) =
    cycle_upto frames k ++
      match frames !! (S k mod length frames)%nat with
      | Some frame => [frame]
      | None => []
      end.
Proof.
  unfold cycle_upto. rewrite (seq_S (S k)), omap_app. reflexivity.
Qed.

Lemma cycle_upto_nil n : cycle_upto [] n = [].
Proof.
  induction n as [|n IH]; [reflexivity|]. by rewrite cycle_upto_S, IH.
Qed.

Lemma cycle_frame (frames : list Frame) j :
  frames ≠ [] → is_Some (frames !! (j mod length frames)%nat).
Proof.
  intros Hne. apply lookup_lt_is_Some_2. apply Nat.mod_upper_bound.
  by destruct frames.
Qed.

Lemma cycle_upto_length frames n :
  length (cycle_upto frames n) = if decide (frames = []) then 0%nat else S n.
Proof.
  case_decide as Hf; [subst; by rewrite cycle_upto_nil|].
  induction n as [|n IH].
  - unfold cycle_upto. simpl.
    by destruct (cycle_frame frames 0 Hf) as [frame ->].
  - rewrite cycle_upto_S, length_app, IH.
    destruct (cycle_frame frames (S n) Hf) as [frame ->]. simpl. lia.
Qed.

Lemma cycle_upto_lookup frames n i :
  (i <= n)%nat → cycle_upto frames n !! i = frames !! (i mod length frames)%nat.
Proof.
  destruct (decide (frames = [])) as [->|Hf].
  { intros _. by rewrite cycle_upto_nil, !lookup_nil. }
  induction n as [|n IH]; intros Hi.
  - replace i with 0%nat by lia. unfold cycle_upto. simpl.
    by destruct (cycle_frame frames 0 Hf) as [frame ->].
  - pose proof (cycle_upto_length frames n) as Hlen.
    rewrite decide_False in Hlen by exact Hf.
    rewrite cycle_upto_S.
    destruct (decide (i = S n)) as [->|Hne].
    + destruct (cycle_frame frames (S n) Hf) as [frame Hframe].
      rewrite Hframe, lookup_app_r by lia.
      by replace (S n - length (cycle_upto frames n))%nat with 0%nat by lia.
    + rewrite lookup_app_l by lia. apply IH. lia.
Qed.

Lemma cycle_at_matrix_part frames calls k e e1 :
  matrix_part e1 = matrix_part e →
  cycle_at frames calls k e → cycle_at frames calls k e1.
Proof.
  unfold matrix_part, cycle_at. intros [= -> -> -> _ _ ->]. done.
Qed.

Lemma play_matrix_cycle_at now frames delay e :
  frames ≠ [] →
  cycle_at frames (matrix_calls e) 0 (play_matrix now frames delay e).
Proof.
  intros Hf. destruct frames as [|frame0 rest]; [done|].
  unfold cycle_at, play_matrix. simpl.
  split; [reflexivity|]. split; [reflexivity|].
  split; [by rewrite Nat.sub_diag|].
  unfold cycle_upto. simpl. by rewrite Nat.sub_diag.
Qed.

(** The matrix block renders the next frame of the cycle or none. *)
Lemma matrix_logic_cycle frames calls k now e :
  frames ≠ [] → cycle_at frames calls k e →
  ∃ e', matrix_logic now e = Ok e' ∧
        (cycle_at frames calls k e' ∨ cycle_at frames calls (S k) e').
Proof.
  intros Hf (Ha & Hfr & Hidx & Hcalls).
  destruct (Z_lt_le_dec (matrix_delay e) (ticks_diff now (matrix_last_tick e)))
    as [Hlt|Hle].
  - assert (Hne : matrix_frames e ≠ []) by by rewrite Hfr.
    destruct (matrix_logic_advance now e Ha Hne Hlt) as (frame & Hframe & ->).
    eexists. split; [reflexivity|]. right.
    rewrite Hfr, Hidx, Nat.Div0.add_mod_idemp_l, Nat.add_1_r in Hframe.
    unfold cycle_at. simpl.
    split; [exact Ha|]. split; [exact Hfr|].
    split.
    + by rewrite Hfr, Hidx, Nat.Div0.add_mod_idemp_l, Nat.add_1_r.
    + by rewrite Hcalls, cycle_upto_S, Hframe, app_assoc.
  - rewrite matrix_logic_hold by exact Hle.
    exists e. split; [reflexivity|]. by left.
Qed.

Section Cycle.
Context {FA : FloatArith}.

Lemma update_cycle frames calls k now now_fade e :
  wf e → frames ≠ [] → cycle_at frames calls k e →
  ∃ e', update now now_fade e = Ok e' ∧ wf e' ∧
        (cycle_at frames calls k e' ∨ cycle_at frames calls (S k) e').
Proof.
  intros Hwf Hf Hc.
  destruct (update_total now now_fade e Hwf) as (e' & Hu & Hwf').
  exists e'. split; [exact Hu|]. split; [exact Hwf'|].
  unfold update in Hu.
  destruct (rgb_logic now now_fade e) as [[fl e1]|x] eqn:Hr; simpl in Hu;
    [|discriminate].
  pose proof (rgb_logic_matrix_part _ _ _ _ _ Hr) as Hm.
  pose proof (cycle_at_matrix_part _ _ _ _ _ Hm Hc) as Hc1.
  destruct fl.
  - destruct (matrix_logic_cycle frames calls k now e1 Hf Hc1) as (e2 & He2 & H).
    rewrite He2 in Hu. by injection Hu as <-.
  - injection Hu as <-. by left.
Qed.

Lemma run_ticks_cycle frames calls ticks :
  frames ≠ [] →
  ∀ k e, wf e → cycle_at frames calls k e →
  ∃ j n e', run_ticks ticks e = Ok (j, e') ∧ wf e' ∧
            (k <= n <= k + length ticks)%nat ∧ cycle_at frames calls n e'.
Proof.
  intros Hf. induction ticks as [|[now now_fade] rest IH]; intros k e Hwf Hc.
  - exists 0%nat, k, e. simpl. split; [reflexivity|]. split; [exact Hwf|].
    split; [lia|exact Hc].
  - destruct (update_cycle frames calls k now now_fade e Hwf Hf Hc)
      as (e1 & Hu & Hwf1 & [Hc1|Hc1]).
    + destruct (IH k e1 Hwf1 Hc1) as (j & n & e' & Hrun & Hwf' & Hn & Hc').
      simpl. rewrite Hu. simpl. rewrite Hrun. simpl.
      eexists _, n, e'. split; [reflexivity|]. split; [exact Hwf'|].
      split; [lia|exact Hc'].
    + destruct (IH (S k) e1 Hwf1 Hc1) as (j & n & e' & Hrun & Hwf' & Hn & Hc').
      simpl. rewrite Hu. simpl. rewrite Hrun. simpl.
      eexists _, n, e'. split; [reflexivity|]. split; [exact Hwf'|].
      split; [lia|exact Hc'].
Qed.

(** X10.  After [play_matrix(frames, delay)], whatever the readings of the
    calls of [update] that follow and whatever the RGB side does, the
    matrix sink receives the frames in the order of the list, starting
    with frame 0 and going round: after the calls it has received frames
    [0 .. n] of the cycle for some [n] not above the number of calls, and
    the cursor is on [n mod len(frames)].  A call renders one frame at
    most, so that a late call delays the cycle and never skips a frame.
    With an empty list nothing is rendered and [update] does not divide
    by zero. *)
Theorem matrix_cycle_order now0 frames delay e ticks :
  wf e →
  ∃ j n e',
    run_ticks ticks (play_matrix now0 frames delay e) = Ok (j, e') ∧
    (n <= length ticks)%nat ∧
    matrix_calls e' = matrix_calls e ++ cycle_upto frames n ∧
    length (cycle_upto frames n) = (if decide (frames = []) then 0%nat else S n) ∧
    (∀ i, (i <= n)%nat →
          cycle_upto frames n !! i = frames !! (i mod length frames)%nat) ∧
    (frames ≠ [] → matrix_idx e' = (n mod length frames)%nat).
Proof.
  intros Hwf.
  pose proof (play_matrix_wf now0 frames delay e Hwf) as Hwf1.
  destruct (decide (frames = [])) as [->|Hf].
  - destruct (run_ticks_matrix_off ticks (play_matrix now0 [] delay e) Hwf1)
      as (j & e' & Hrun & _ & Hm); [by right|].
    exists j, 0%nat, e'. split; [exact Hrun|]. split; [lia|].
    unfold matrix_part in Hm. injection Hm as Hcalls _ _ _ _ _.
    split; [by rewrite Hcalls, cycle_upto_nil, app_nil_r|].
    split; [apply cycle_upto_length|].
    split; [intros i _; by rewrite cycle_upto_nil, !lookup_nil|done].
  - destruct (run_ticks_cycle frames (matrix_calls e) ticks Hf 0
                (play_matrix now0 frames delay e) Hwf1
                (play_matrix_cycle_at now0 frames delay e Hf))
      as (j & n & e' & Hrun & _ & Hn & (_ & _ & Hidx & Hcalls)).
    exists j, n, e'. split; [exact Hrun|]. split; [lia|].
    split; [exact Hcalls|].
    split; [by rewrite cycle_upto_length, decide_False by exact Hf|].
    split; [intros i Hi; by apply cycle_upto_lookup|done].
Qed.

End Cycle.

(** ** The dispatcher *)

Lemma play_rgb_sequence_matrix_part now sequence loop e e1 :
  play_rgb_sequence now sequence loop e = Ok e1 →
  matrix_part e1 = matrix_part e.
Proof.
  unfold play_rgb_sequence.
  destruct (getitem _ _) as [[tg d]|x]; simpl; [|discriminate].
  intros Hf. by apply fade_to_inv in Hf as (v & _ & ->).
Qed.

Lemma on_anim_inv f r r' :
  on_anim f r = Ok r' →
  ∃ a, f (anim r) = Ok a ∧ r' = set_anim a r.
Proof.
  unfold on_anim. destruct (f (anim r)) as [a|x]; simpl; [|discriminate].
  intros [= <-]. by exists a.
Qed.

(** Closes [data ∈ codes] for a literal [data]. *)
Ltac in_codes :=
  repeat first [apply list_elem_of_here | apply list_elem_of_further].

(** Closes [data ∉ codes] for a literal [data]. *)
Ltac not_in_codes :=
  let Hin := fresh in
  intros Hin;
  repeat (apply elem_of_cons in Hin as [Hin|Hin]; [discriminate|]);
  by apply elem_of_nil in Hin.

(** One branch of the dispatcher, for the three groups of codes. *)
Ltac other_group :=
  let Hn := fresh in
  intros Hn; first [by (exfalso; apply Hn; in_codes) | by repeat split].

(** X11.  The three groups of codes of [ir_callback] keep to themselves:
    a code that is not a movement code leaves the [duty_u16] log and the
    deadline as they are, a code that is not an RGB code leaves strip,
    [np.write] log and fade session as they are, and a code that is not a
    matrix code leaves the matrix sink and the frame cycle as they are.
    So a light or face command never moves or stops the robot, and
    driving never disturbs a running animation. *)
Theorem ir_callback_groups now data r r' :
  ir_callback now data r = Ok r' →
  (data ∉ movement_codes →
   motor_stop_time r' = motor_stop_time r ∧ pwm_writes r' = pwm_writes r) ∧
  (data ∉ rgb_codes → rgb_part (anim r') = rgb_part (anim r)) ∧
  (data ∉ matrix_codes → matrix_part (anim r') = matrix_part (anim r)).
Proof.
  unfold ir_callback. destruct (data <? 0).
  { intros [= <-]. by repeat split. }
  repeat match goal with
         | |- context [data =? ?c] => destruct (Z.eqb_spec data c) as [->|?]
         end;
    try (intros [= <-]; split; [other_group|split; other_group]).
  all: intros H; apply on_anim_inv in H as (a & Ha & ->);
    apply play_rgb_sequence_matrix_part in Ha;
    split; [other_group|split; [other_group|intros _; exact Ha]].
Qed.

Lemma ir_callback_groups_witness :
  let r := driven 1 1 1 1 400 robot0 in
  drive 0 1 1 1 1 400 robot0 = Ok r ∧
  ∃ r', ir_callback 0 69 r = Ok r' ∧
        motor_stop_time r' = motor_stop_time r ∧
        matrix_part (anim r') = matrix_part (anim r).
Proof.
  intros r. split; [reflexivity|].
  destruct (ir_callback 0 69 r) as [r'|x] eqn:H.
  - exists r'. split; [reflexivity|].
    destruct (ir_callback_groups 0 69 r r' H) as (Hm & _ & Hx).
    split; [exact (proj1 (Hm ltac:(not_in_codes)))|exact (Hx ltac:(not_in_codes))].
  - vm_compute in H. discriminate.
Defined.

(** ** The program as a whole *)

Lemma still_frames_ok : Forall frame_ok still_frames.
Proof. apply (bool_decide_unpack _). vm_compute. reflexivity. Qed.

Lemma matrix_assets_ok : Forall (Forall frame_ok) matrix_assets.
Proof. apply (bool_decide_unpack _). vm_compute. reflexivity. Qed.

Lemma rgb_assets_ok : Forall (λ sequence, sequence ≠ [] ∧ Forall step_ok sequence) rgb_assets.
Proof. apply (bool_decide_unpack _). vm_compute. reflexivity. Qed.

Lemma frames_ok_matrix_part e e1 :
  matrix_part e1 = matrix_part e → frames_ok e → frames_ok e1.
Proof. unfold matrix_part, frames_ok. intros [= -> _ -> _ _ _]. done. Qed.

Lemma matrix_func_frames_ok frame e :
  frame_ok frame → frames_ok e → frames_ok (matrix_func frame e).
Proof.
  intros Hf [Hfr Hc]. split; [exact Hfr|].
  simpl. apply Forall_app. split; [exact Hc|by constructor].
Qed.

Lemma play_matrix_frames_ok now frames delay e :
  Forall frame_ok frames → frames_ok e →
  frames_ok (play_matrix now frames delay e).
Proof.
  intros Hfr [_ Hc]. unfold play_matrix. simpl.
  destruct frames as [|frame0 rest]; [by split|].
  apply matrix_func_frames_ok; [by apply Forall_cons in Hfr as [? _]|].
  by split.
Qed.

(** The matrix block renders frames of the engine's list only. *)
Lemma matrix_logic_frames_ok now e e' :
  frames_ok e → matrix_logic now e = Ok e' → frames_ok e'.
Proof.
  intros Hok. destruct (matrix_animating e) eqn:Ha.
  2: { rewrite matrix_logic_off by auto. by intros [= <-]. }
  destruct (decide (matrix_frames e = [])) as [Hf|Hf].
  { rewrite matrix_logic_off by auto. by intros [= <-]. }
  destruct (Z_lt_le_dec (matrix_delay e) (ticks_diff now (matrix_last_tick e)))
    as [Hlt|Hle].
  - destruct (matrix_logic_advance now e Ha Hf Hlt) as (frame & Hframe & ->).
    intros [= <-]. apply matrix_func_frames_ok.
    + destruct Hok as [Hfr _]. by apply (Forall_lookup_1 _ _ _ _ Hfr Hframe).
    + exact Hok.
  - rewrite matrix_logic_hold by exact Hle. by intros [= <-].
Qed.

Lemma motor_check_anim now r : anim (motor_check now r) = anim r.
Proof. unfold motor_check. by destruct (_ && _). Qed.

Section Program.
Context {FA : FloatArith}.

Lemma update_frames_ok now now_fade e e' :
  frames_ok e → update now now_fade e = Ok e' → frames_ok e'.
Proof.
  intros Hok. unfold update.
  destruct (rgb_logic now now_fade e) as [[fl e1]|x] eqn:Hr; simpl;
    [|discriminate].
  pose proof (frames_ok_matrix_part _ _ (rgb_logic_matrix_part _ _ _ _ _ Hr) Hok)
    as Hok1.
  destruct fl.
  - by apply matrix_logic_frames_ok.
  - by intros [= <-].
Qed.

Lemma loop_iteration_ok now now_fade now_motor r :
  robot_ok r →
  ∃ r', loop_iteration now now_fade now_motor r = Ok r' ∧ robot_ok r'.
Proof.
  intros (Hwf & Hn & Hfr). unfold loop_iteration.
  destruct (update_total now now_fade (anim r) Hwf) as (a & Hu & Hwfa).
  rewrite Hu. simpl. eexists. split; [reflexivity|].
  unfold robot_ok. rewrite motor_check_anim. simpl.
  split; [exact Hwfa|]. split.
  - by rewrite (update_num_leds _ _ _ _ Hwf Hu).
  - by apply (update_frames_ok now now_fade (anim r)).
Qed.

Lemma play_rgb_asset_ok now sequence r :
  sequence ∈ rgb_assets → robot_ok r →
  ∃ r', on_anim (play_rgb_sequence now sequence true) r = Ok r' ∧ robot_ok r'.
Proof.
  intros Hin (Hwf & Hn & Hfr).
  pose proof (proj1 (Forall_forall _ _) rgb_assets_ok _ Hin) as Hok.
  destruct (do_call_ok (PlayRgbSequence now sequence true) (anim r) Hok Hwf)
    as (a & Ha & Hwfa & Hna).
  simpl in Ha. unfold on_anim. rewrite Ha. simpl.
  eexists. split; [reflexivity|].
  split; [exact Hwfa|]. split; [simpl; congruence|].
  simpl. apply (frames_ok_matrix_part (anim r)); [|exact Hfr].
  by apply (play_rgb_sequence_matrix_part now sequence true).
Qed.

Lemma play_matrix_asset_ok now frames delay r :
  frames ∈ matrix_assets → robot_ok r →
  robot_ok (set_anim (play_matrix now frames delay (anim r)) r).
Proof.
  intros Hin (Hwf & Hn & Hfr).
  pose proof (proj1 (Forall_forall _ _) matrix_assets_ok _ Hin) as Hok.
  split; [by apply play_matrix_wf|]. split.
  - simpl. unfold play_matrix. simpl. by destruct frames.
  - by apply play_matrix_frames_ok.
Qed.

Lemma still_frame_ok frame r :
  frame ∈ still_frames → robot_ok r →
  robot_ok (display_frame frame (set_anim (stop_matrix (anim r)) r)).
Proof.
  intros Hin (Hwf & Hn & Hfr).
  pose proof (proj1 (Forall_forall _ _) still_frames_ok _ Hin) as Hok.
  split; [by destruct Hwf|]. split; [exact Hn|].
  by apply matrix_func_frames_ok.
Qed.

Lemma ir_callback_ok now data r :
  robot_ok r → ∃ r', ir_callback now data r = Ok r' ∧ robot_ok r'.
Proof.
  intros Hok. unfold ir_callback. destruct (data <? 0); [by exists r|].
  repeat match goal with
         | |- context [data =? ?c] => destruct (data =? c)
         end;
    first
      [ by apply play_rgb_asset_ok; [in_codes|]
      | eexists; split; [reflexivity|];
        first
          [ by apply play_matrix_asset_ok; [in_codes|]
          | by apply still_frame_ok; [in_codes|]
          | exact Hok
          | idtac ] ].
  destruct Hok as (Hwf & Hn & Hfr).
  split; [by apply stop_rgb_wf|]. split; [|exact Hfr].
  unfold num_leds. simpl. by rewrite length_replicate.
Qed.

Lemma do_event_ok ev r :
  robot_ok r → ∃ r', do_event ev r = Ok r' ∧ robot_ok r'.
Proof.
  destruct ev as [now data|now now_fade now_motor]; simpl.
  - apply ir_callback_ok.
  - apply loop_iteration_ok.
Qed.

Lemma run_events_ok evs :
  ∀ r, robot_ok r → ∃ r', run_events evs r = Ok r' ∧ robot_ok r'.
Proof.
  induction evs as [|ev rest IH]; intros r Hok; simpl; [by exists r|].
  destruct (do_event_ok ev r Hok) as (r1 & -> & Hok1). simpl.
  by apply IH.
Qed.

Lemma startup_ok now :
  ∃ r0, startup now = Ok (r0, init_matrix ++ matrix_clear) ∧ robot_ok r0.
Proof.
  unfold startup.
  destruct (do_call_ok (FadeTo now (TColor (0, 30, 0)) 1000) (anim robot0))
    as (a & Ha & Hwfa & Hna); [done|apply init_wf|].
  cbn [do_call] in Ha. rewrite Ha. simpl. eexists. split; [reflexivity|].
  split; [exact Hwfa|]. split; [exact Hna|].
  apply fade_to_inv in Ha as (v & _ & ->). by split.
Qed.

(** X12.  The program never raises and never loses a frame.  [run] reaches
    its loop after four writes on the bus (three commands and the clear);
    from there, whatever codes the remote sends and whatever the readings
    of the clock in the rounds of the loop, every callback and every round
    returns, the engine stays well formed with its eight pixels, and every
    frame handed to [display_frame] has sixteen bytes, so it goes out in
    one write and reads back from the interleaved buffer as it was. *)
Theorem program_never_raises now0 evs :
  ∃ r0 r,
    startup now0 = Ok (r0, init_matrix ++ matrix_clear) ∧
    run_events evs r0 = Ok r ∧
    wf (anim r) ∧ num_leds (anim r) = 8%nat ∧
    Forall (λ frame,
              ∃ buf, display_frame_i2c frame = Ok [WritetoMem HT_ADDR 0 buf] ∧
                     deinterleave buf = frame)
           (matrix_calls (anim r)).
Proof.
  destruct (startup_ok now0) as (r0 & Hs & Hok0).
  destruct (run_events_ok evs r0 Hok0) as (r & Hrun & Hwf & Hn & _ & Hc).
  exists r0, r. split; [exact Hs|]. split; [exact Hrun|].
  split; [exact Hwf|]. split; [exact Hn|].
  eapply Forall_impl; [exact Hc|].
  intros frame Hf.
  destruct (display_frame_i2c_ok frame Hf) as (buf & Hd & _ & _ & Hb).
  by exists buf.
Qed.

End Program.

(** ** Timing across the wrap of the counter *)

Section Wrap.
Context {FA : FloatArith}.


End Wrap.

(** ** The further properties at concrete inputs *)

Lemma stop_matrix_freezes_witness :
  let e0 := play_matrix 0 matrix_anim_talk 200 (init leds) in
  wf e0 ∧
  ∃ n e', run_ticks (FO := exact_ops) [(250, 250); (500, 500)] (stop_matrix e0)
            = Ok (n, e') ∧
          matrix_calls e' = matrix_calls e0.
Proof.
  intros e0.
  assert (Hwf : wf e0) by (apply play_matrix_wf, init_wf).
  split; [exact Hwf|].
  destruct (stop_matrix_freezes (FA := exact_arith) e0
              [(250, 250); (500, 500)] Hwf)
    as (n & e' & Hrun & Hc & _).
  by exists n, e'.
Defined.

Lemma engine_never_raises_witness :
  let calls := [FadeTo 0 (TColor (0, 30, 0)) 1000; Update 500 500;
                PlayRgbSequence 600 seq_police true; Update 700 700;
                PlayMatrix 700 rotate 80; Update 800 800; StopRgb;
                StopMatrix; Update 900 900] in
  Forall call_ok calls ∧
  ∃ e', do_calls (FO := exact_ops) calls (init leds) = Ok e' ∧ wf e'.
Proof.
  intros calls.
  assert (Hok : Forall call_ok calls).
  { repeat constructor; discriminate. }
  split; [exact Hok|].
  destruct (engine_never_raises (FA := exact_arith) leds calls Hok)
    as (e' & Hrun & Hwf & _).
  by exists e'.
Defined.

Lemma fade_to_resumes_sequence_witness :
  let e0 := faded 0 (replicate 8 (150, 0, 0)) 100
              (set_rgb_seq_active true
                 (set_rgb_seq_idx 0
                    (set_rgb_seq_loop true
                       (set_rgb_sequence seq_police (init leds))))) in
  let e1 := faded 50 (replicate 8 (0, 0, 9)) 20 e0 in
  (wf e0 ∧ rgb_seq_active e0 = true ∧
   fade_to 50 (TColor (0, 0, 9)) 20 e0 = Ok e1 ∧
   20 <= ticks_diff 80 50) ∧
  ∃ e2, update (FO := exact_ops) 80 80 e1 = Ok e2 ∧
        np e2 = replicate 8 (0, 0, 9) ∧ rgb_seq_idx e2 = 1%nat ∧
        rgb_target_colors e2 = replicate 8 (0, 0, 0).
Proof.
  intros e0 e1.
  assert (Hp : play_rgb_sequence 0 seq_police true (init leds) = Ok e0)
    by (vm_compute; reflexivity).
  assert (Hwf : wf e0).
  { apply (play_rgb_sequence_wf 0 seq_police true (init leds) e0);
      [|exact Hp].
    apply (bool_decide_unpack _). vm_compute. reflexivity. }
  assert (Ha : rgb_seq_active e0 = true) by reflexivity.
  assert (Hf : fade_to 50 (TColor (0, 0, 9)) 20 e0 = Ok e1)
    by (vm_compute; reflexivity).
  assert (Hd : 20 <= ticks_diff 80 50) by (vm_compute; discriminate).
  split; [done|].
  destruct (fade_to_resumes_sequence (FA := exact_arith)
              e0 50 (TColor (0, 0, 9)) 20 e1 80 80 Hwf Ha Hf Hd)
    as (_ & _ & e2 & Hu & Hnp & Hnext & _).
  assert (Hpl : playing (num_leds e0) (rgb_sequence e0) (rgb_seq_loop e0)
                  (rgb_seq_idx e0 + 1) e2) by (apply Hnext; simpl; lia).
  exists e2. split; [exact Hu|]. split; [exact Hnp|].
  split; [exact (pl_idx _ _ _ _ _ Hpl)|].
  destruct (pl_step _ _ _ _ _ Hpl) as (tg & dur & Hstep & _ & Htg).
  injection Hstep as <- <-. simpl in Htg. by injection Htg as <-.
Defined.

Lemma matrix_cycle_order_witness :
  wf (init leds) ∧
  ∃ j n e',
    run_ticks (FO := exact_ops) [(210, 210); (410, 410); (620, 620)]
      (play_matrix 0 matrix_anim_talk 200 (init leds)) = Ok (j, e') ∧
    (n <= 3)%nat ∧
    matrix_calls e' = cycle_upto matrix_anim_talk n.
Proof.
  split; [apply init_wf|].
  destruct (matrix_cycle_order (FA := exact_arith) 0 matrix_anim_talk 200
              (init leds) [(210, 210); (410, 410); (620, 620)] (init_wf leds))
    as (j & n & e' & Hrun & Hn & Hc & _).
  by exists j, n, e'.
Defined.


Lemma play_rgb_sequence_checks_first_step_only_witness :
  let sequence := [(TColor (1, 0, 0), 10); (TList [], 10)] in
  let e1 := faded 0 (replicate 8 (1, 0, 0)) 10
              (set_rgb_seq_active true
                 (set_rgb_seq_idx 0
                    (set_rgb_seq_loop true
                       (set_rgb_sequence sequence (init leds))))) in
  play_rgb_sequence 0 sequence true (init leds) = Ok e1 ∧
  update (FO := exact_ops) 20 20 e1 = Raise IndexError.
Proof.
  intros sequence e1. split; [vm_compute; reflexivity|].
  apply (proj2 (play_rgb_sequence_checks_first_step_only (FA := exact_arith))
           20 20 e1 1%nat 10).
  - reflexivity.
  - reflexivity.
  - reflexivity.
  - vm_compute. discriminate.
  - reflexivity.
  - reflexivity.
Defined.
